(** * SimpleMicroservices: the request handlers of [main.py] over the
    in-memory stores.

    The four module-level dictionaries of [main.py] ([persons], [addresses],
    [ages], [jobs]) are finite maps gathered in one [Store] record; a
    handler is a function from the store to an outcome (the returned record
    or the raised exception) and the store it leaves behind. *)

From Stdlib Require Import NArith ZArith Ascii String.
From stdpp Require Import gmap strings list fin_maps.

Local Open Scope string_scope.
Local Open Scope N_scope.

(** ** Values of the Python standard library used by the models *)

(** [uuid.UUID]: the 128-bit integer of the identifier ([UUID.int]).
    Equality and hashing of UUIDs go through that integer. *)
Record UUID := mkUUID { uuid_int : N }.

Global Instance UUID_eq_dec : EqDecision UUID.
Proof. solve_decision. Defined.

Global Instance UUID_countable : Countable UUID.
Proof. by apply (inj_countable' uuid_int mkUUID); intros []. Defined.

Definition hex_digit (d : N) : ascii :=
  match String.get (N.to_nat d) "0123456789abcdef" with
  | Some c => c
  | None => "0"%char
  end.

(** ['%0<width>x' % n] for an [n] below [16 ^ width]. *)
Fixpoint hex_fixed (width : nat) (n : N) : string :=
  match width with
  | O => ""
  | S w => String (hex_digit (N.land (N.shiftr n (4 * N.of_nat w)) 15))
                  (hex_fixed w n)
  end.

(** [str(u)]: the 32 hexadecimal digits in groups of 8-4-4-4-12. *)
Definition UUID_str (u : UUID) : string :=
  let hex := hex_fixed 32 (uuid_int u) in
  String.substring 0 8 hex +:+ "-" +:+ String.substring 8 4 hex +:+ "-" +:+
  String.substring 12 4 hex +:+ "-" +:+ String.substring 16 4 hex +:+ "-" +:+
  String.substring 20 12 hex.

(** [datetime.date]. *)
Record date := mkDate { year : N; month : N; day : N }.

Global Instance date_eq_dec : EqDecision date.
Proof. solve_decision. Defined.

Definition dec_digit (d : N) : ascii :=
  match String.get (N.to_nat d) "0123456789" with
  | Some c => c
  | None => "0"%char
  end.

(** ['%0<width>d' % n] for an [n] below [10 ^ width]. *)
Fixpoint dec_fixed (width : nat) (n : N) : string :=
  match width with
  | O => ""
  | S w => String (dec_digit ((n / 10 ^ N.of_nat w) mod 10)) (dec_fixed w n)
  end.

(** [str(d)], that is [d.isoformat()]: YYYY-MM-DD. *)
Definition date_str (d : date) : string :=
  dec_fixed 4 (year d) +:+ "-" +:+ dec_fixed 2 (month d) +:+ "-" +:+
  dec_fixed 2 (day d).

(** ** Exceptions and outcomes *)

(** [fastapi.HTTPException(status_code, detail)], and the two exceptions a
    handler can let escape without catching them. *)
Inductive Exception :=
| HTTPException (status_code : Z) (detail : string)
| ValidationError
| KeyError.

Inductive Outcome (A : Type) :=
| Return (a : A)
| Raise (e : Exception).
Arguments Return {A} a.
Arguments Raise {A} e.

(** ** [models/age.py] and [models/job.py] *)

Module Age.
Record t := mk {
  person_name : string;
  birth_date : date;
  current_age : option Z
}.
End Age.

Module Job.
Record t := mk {
  id : UUID;
  title : string;
  company : string;
  start_date : date;
  end_date : option date;
  is_current : bool
}.
End Job.

(** ** Dumped models

    [model_dump()] turns a model into a [dict] from field names to values,
    and a model called on the unpacked dict builds (and validates) a model
    from such a dict.
    [pyval] is the part of Python's values that these dicts hold. *)

(** Modelled from the spec: [models/address.py] and [models/person.py] are
    not among the sources. The spec speaks of server-assigned fields of the
    read models without naming them; they are kept as one value, which the
    environment supplies when a read model is built without it. *)
Record ServerAssigned := mkAssigned { stamp : string }.

#[warnings="-register-all"]
Inductive pyval :=
| PNone
| PStr (s : string)
| PUuid (u : UUID)
| PDate (d : date)
| PAssigned (a : ServerAssigned)
| PList (l : list pyval)
| PDict (d : gmap string pyval).

(** What an update payload holds in a field it set: a value, dumped by
    [dump], or null. *)
Definition dump_opt {A : Type} (dump : A → pyval) (o : option A) : pyval :=
  match o with Some v => dump v | None => PNone end.

(** A field of an update payload is unset ([None]), set to null
    ([Some None]) or set to a value. *)
Definition is_null {A : Type} (f : option (option A)) : bool :=
  match f with Some None => true | _ => false end.

(** A required string field of a model: anything but a string, null
    included, is a validation error ([None]). *)
Definition load_str (v : pyval) : option string :=
  match v with
  | PStr s => Some s
  | _ => None
  end.

(** A required date field. *)
Definition load_date (v : pyval) : option date :=
  match v with
  | PDate d => Some d
  | _ => None
  end.

Definition load_uuid (v : pyval) : option UUID :=
  match v with PUuid u => Some u | _ => None end.

(** A field with a default factory: the factory's value [dflt] is used
    when the key is absent from the keyword arguments. *)
Definition load_default {A} (load : pyval → option A) (dflt : A)
    (o : option pyval) : option A :=
  match o with
  | None => Some dflt
  | Some v => load v
  end.

Definition load_assigned (v : pyval) : option ServerAssigned :=
  match v with PAssigned a => Some a | _ => None end.

Module AddressBase.
(** Modelled from the spec: [models/address.py] is not among the sources.
    An Address has an id and the fields street, city, state, postal_code and
    country, free-form strings that are all required: a record never holds
    null in a field, and building one from a dict with null in a field is a
    validation error. *)
Record t := mk {
  id : UUID;
  street : string;
  city : string;
  state : string;
  postal_code : string;
  country : string
}.

Definition model_dump (a : t) : gmap string pyval :=
  <["id" := PUuid (id a)]>
  (<["street" := PStr (street a)]>
  (<["city" := PStr (city a)]>
  (<["state" := PStr (state a)]>
  (<["postal_code" := PStr (postal_code a)]>
  (<["country" := PStr (country a)]> ∅))))).

(** The model built from the keyword arguments [kw]; [None] stands for a
    validation error. *)
Definition init (kw : gmap string pyval) : option t :=
  i ← kw !! "id" ≫= load_uuid;
  s ← kw !! "street" ≫= load_str;
  c ← kw !! "city" ≫= load_str;
  r ← kw !! "state" ≫= load_str;
  p ← kw !! "postal_code" ≫= load_str;
  n ← kw !! "country" ≫= load_str;
  Some (mk i s c r p n).
End AddressBase.

Module AddressCreate.
(** Modelled from the spec: the create payload is the full Address record,
    with the id the client chose. *)
Abbreviation t := AddressBase.t.
End AddressCreate.

Module AddressUpdate.
(** Modelled from the spec: the update payload is sparse, each field being
    either unset ([None]) or set to a value, which may be null
    ([Some None]). *)
Record t := mk {
  street : option (option string);
  city : option (option string);
  state : option (option string);
  postal_code : option (option string);
  country : option (option string)
}.

Definition dump_set (k : string) (f : option (option string))
    (d : gmap string pyval) : gmap string pyval :=
  match f with
  | Some v => <[k := dump_opt PStr v]> d
  | None => d
  end.

(** [model_dump(exclude_unset=True)]: only the fields the payload set. *)
Definition model_dump_exclude_unset (u : t) : gmap string pyval :=
  dump_set "street" (street u)
  (dump_set "city" (city u)
  (dump_set "state" (state u)
  (dump_set "postal_code" (postal_code u)
  (dump_set "country" (country u) ∅)))).

(** Whether the payload sets some field to null. *)
Definition sets_null (u : t) : bool :=
  is_null (street u) || is_null (city u) || is_null (state u)
  || is_null (postal_code u) || is_null (country u).
End AddressUpdate.

Module AddressRead.
(** Modelled from the spec: the stored record is an Address with the
    server-assigned fields. *)
Record t := mk {
  base : AddressBase.t;
  assigned : ServerAssigned
}.

Definition id (r : t) := AddressBase.id (base r).
Definition street (r : t) := AddressBase.street (base r).
Definition city (r : t) := AddressBase.city (base r).
Definition state (r : t) := AddressBase.state (base r).
Definition postal_code (r : t) := AddressBase.postal_code (base r).
Definition country (r : t) := AddressBase.country (base r).

Definition model_dump (r : t) : gmap string pyval :=
  <["assigned" := PAssigned (assigned r)]> (AddressBase.model_dump (base r)).

(** The read model built from [kw], the server-assigned fields defaulting
    to [now]. *)
Definition init (now : ServerAssigned) (kw : gmap string pyval) : option t :=
  b ← AddressBase.init kw;
  a ← load_default load_assigned now (kw !! "assigned");
  Some (mk b a).
End AddressRead.

Module PersonBase.
(** Modelled from the spec: [models/person.py] is not among the sources.
    A Person has the fields uni, first_name, last_name, email, phone and
    birth_date and an embedded list of Address values, and the same shape
    as an Address: every field is required, a record never holds null in a
    field, and building one from a dict with null in a field is a validation
    error. Its id exists on the read model only, where it is generated when
    absent. *)
Record t := mk {
  uni : string;
  first_name : string;
  last_name : string;
  email : string;
  phone : string;
  birth_date : date;
  addresses : list AddressBase.t
}.

Definition model_dump (p : t) : gmap string pyval :=
  <["uni" := PStr (uni p)]>
  (<["first_name" := PStr (first_name p)]>
  (<["last_name" := PStr (last_name p)]>
  (<["email" := PStr (email p)]>
  (<["phone" := PStr (phone p)]>
  (<["birth_date" := PDate (birth_date p)]>
  (<["addresses" :=
       PList ((λ a, PDict (AddressBase.model_dump a)) <$> addresses p)]>
   ∅)))))).

Definition load_address (v : pyval) : option AddressBase.t :=
  match v with PDict d => AddressBase.init d | _ => None end.

Definition load_addresses (v : pyval) : option (list AddressBase.t) :=
  match v with PList l => mapM load_address l | _ => None end.

Definition init (kw : gmap string pyval) : option t :=
  u ← kw !! "uni" ≫= load_str;
  f ← kw !! "first_name" ≫= load_str;
  l ← kw !! "last_name" ≫= load_str;
  e ← kw !! "email" ≫= load_str;
  h ← kw !! "phone" ≫= load_str;
  b ← kw !! "birth_date" ≫= load_date;
  a ← kw !! "addresses" ≫= load_addresses;
  Some (mk u f l e h b a).
End PersonBase.

Module PersonCreate.
(** Modelled from the spec: the create payload has the fields of a Person
    and no id. *)
Abbreviation t := PersonBase.t.
End PersonCreate.

Module PersonRead.
(** Modelled from the spec: the stored record is a Person with its
    generated id and the server-assigned fields. *)
Record t := mk {
  id : UUID;
  base : PersonBase.t;
  assigned : ServerAssigned
}.

Definition uni (r : t) := PersonBase.uni (base r).
Definition first_name (r : t) := PersonBase.first_name (base r).
Definition last_name (r : t) := PersonBase.last_name (base r).
Definition email (r : t) := PersonBase.email (base r).
Definition phone (r : t) := PersonBase.phone (base r).
Definition birth_date (r : t) := PersonBase.birth_date (base r).
Definition addresses (r : t) := PersonBase.addresses (base r).

Definition model_dump (r : t) : gmap string pyval :=
  <["id" := PUuid (id r)]>
  (<["assigned" := PAssigned (assigned r)]> (PersonBase.model_dump (base r))).

(** The read model built from [kw]: the id defaults to [fresh], the value [uuid4()]
    draws, and the server-assigned fields to [now]. *)
Definition init (fresh : UUID) (now : ServerAssigned)
    (kw : gmap string pyval) : option t :=
  i ← load_default load_uuid fresh (kw !! "id");
  b ← PersonBase.init kw;
  a ← load_default load_assigned now (kw !! "assigned");
  Some (mk i b a).
End PersonRead.

Module PersonUpdate.
(** Modelled from the spec: the update payload of a Person; as for an
    Address, a field is unset or set, possibly to null. *)
Record t := mk {
  uni : option (option string);
  first_name : option (option string);
  last_name : option (option string);
  email : option (option string);
  phone : option (option string);
  birth_date : option (option date);
  addresses : option (option (list AddressBase.t))
}.

Definition dump_addresses (l : list AddressBase.t) : pyval :=
  PList ((λ a, PDict (AddressBase.model_dump a)) <$> l).

Definition dump_set {A : Type} (dump : A → pyval) (k : string)
    (f : option A) (d : gmap string pyval) : gmap string pyval :=
  match f with
  | Some v => <[k := dump v]> d
  | None => d
  end.

Definition model_dump_exclude_unset (u : t) : gmap string pyval :=
  dump_set (dump_opt PStr) "uni" (uni u)
  (dump_set (dump_opt PStr) "first_name" (first_name u)
  (dump_set (dump_opt PStr) "last_name" (last_name u)
  (dump_set (dump_opt PStr) "email" (email u)
  (dump_set (dump_opt PStr) "phone" (phone u)
  (dump_set (dump_opt PDate) "birth_date" (birth_date u)
  (dump_set (dump_opt dump_addresses) "addresses" (addresses u) ∅)))))).

(** Whether the payload sets some field to null. *)
Definition sets_null (u : t) : bool :=
  is_null (uni u) || is_null (first_name u) || is_null (last_name u)
  || is_null (email u) || is_null (phone u) || is_null (birth_date u)
  || is_null (addresses u).
End PersonUpdate.

(** ** The in-memory stores *)

Record Store := mkStore {
  persons : gmap UUID PersonRead.t;
  addresses : gmap UUID AddressRead.t;
  ages : gmap string Age.t;      (* key: person_name *)
  jobs : gmap string Job.t       (* key: str(UUID) *)
}.

Definition empty_store : Store := mkStore ∅ ∅ ∅ ∅.

Definition set_persons (m : gmap UUID PersonRead.t) (st : Store) : Store :=
  mkStore m (addresses st) (ages st) (jobs st).

Definition set_addresses (m : gmap UUID AddressRead.t) (st : Store) : Store :=
  mkStore (persons st) m (ages st) (jobs st).

Definition set_ages (m : gmap string Age.t) (st : Store) : Store :=
  mkStore (persons st) (addresses st) m (jobs st).

Definition set_jobs (m : gmap string Job.t) (st : Store) : Store :=
  mkStore (persons st) (addresses st) (ages st) m.

(** A handler answers with an outcome and leaves a store behind. *)
Definition Handler (A : Type) : Type := Store → Outcome A * Store.

(** [list(d.values())], in the order of the map rather than of insertion
    (no handler depends on the order of a listing). *)
Definition values {K : Type} `{Countable K} {V : Type} (d : gmap K V) : list V :=
  (map_to_list d).*2.

(** [d.pop(k, None)]: the value found, if any, and the dict without [k]. *)
Definition pop {K : Type} `{Countable K} {V : Type} (k : K) (d : gmap K V)
    : option V * gmap K V :=
  (d !! k, delete k d).

(** [d1.update(d2)]: the entries of [d2] win. *)
Definition update {K : Type} `{Countable K} {V : Type} (d1 d2 : gmap K V)
    : gmap K V :=
  d2 ∪ d1.

(** One optional query filter: [results] when the parameter is [None],
    otherwise the comprehension [[x for x in results if x.field == v]]. *)
Definition where_eq {A : Type} (field : A → string) (param : option string)
    (results : list A) : list A :=
  match param with
  | Some v => filter (λ x, field x = v) results
  | None => results
  end.

(** ** Addresses *)

Definition create_address (address : AddressCreate.t) (now : ServerAssigned)
    : Handler AddressRead.t := λ st,
  if decide (is_Some (addresses st !! AddressBase.id address)) then
    (Raise (HTTPException 400 "Address with this ID already exists"), st)
  else
    match AddressRead.init now (AddressBase.model_dump address) with
    | None => (Raise ValidationError, st)
    | Some r =>
        let st := set_addresses (<[AddressBase.id address := r]> (addresses st)) st in
        match addresses st !! AddressBase.id address with
        | Some item => (Return item, st)
        | None => (Raise KeyError, st)
        end
    end.

Definition list_addresses (street city state postal_code country : option string)
    : Handler (list AddressRead.t) := λ st,
  let results := values (addresses st) in
  let results := where_eq AddressRead.street street results in
  let results := where_eq AddressRead.city city results in
  let results := where_eq AddressRead.state state results in
  let results := where_eq AddressRead.postal_code postal_code results in
  let results := where_eq AddressRead.country country results in
  (Return results, st).

(** A model instance is always truthy, so [not item] holds for [None] only. *)
Definition get_address (address_id : UUID) : Handler AddressRead.t := λ st,
  match addresses st !! address_id with
  | None => (Raise (HTTPException 404 "Address not found"), st)
  | Some item => (Return item, st)
  end.

Definition update_address (address_id : UUID) (upd : AddressUpdate.t)
    (now : ServerAssigned) : Handler AddressRead.t := λ st,
  match addresses st !! address_id with
  | None => (Raise (HTTPException 404 "Address not found"), st)
  | Some old =>
      let stored := AddressRead.model_dump old in
      let stored := update stored (AddressUpdate.model_dump_exclude_unset upd) in
      match AddressRead.init now stored with
      | None => (Raise ValidationError, st)
      | Some r =>
          let st := set_addresses (<[address_id := r]> (addresses st)) st in
          match addresses st !! address_id with
          | Some item => (Return item, st)
          | None => (Raise KeyError, st)
          end
      end
  end.

(** ** Persons *)

Definition create_person (person : PersonCreate.t) (fresh : UUID)
    (now : ServerAssigned) : Handler PersonRead.t := λ st,
  match PersonRead.init fresh now (PersonBase.model_dump person) with
  | None => (Raise ValidationError, st)
  | Some person_read =>
      (Return person_read,
       set_persons (<[PersonRead.id person_read := person_read]> (persons st)) st)
  end.

(** [any(addr.field == v for addr in addrs)]. *)
Definition any_eq (field : AddressBase.t → string) (v : string)
    (addrs : list AddressBase.t) : bool :=
  existsb (λ addr, bool_decide (field addr = v)) addrs.

Definition where_any (field : AddressBase.t → string)
    (param : option string) (results : list PersonRead.t) : list PersonRead.t :=
  match param with
  | Some v => filter (λ p, any_eq field v (PersonRead.addresses p) = true) results
  | None => results
  end.

Definition list_persons
    (uni first_name last_name email phone birth_date city country : option string)
    : Handler (list PersonRead.t) := λ st,
  let results := values (persons st) in
  let results := where_eq PersonRead.uni uni results in
  let results := where_eq PersonRead.first_name first_name results in
  let results := where_eq PersonRead.last_name last_name results in
  let results := where_eq PersonRead.email email results in
  let results := where_eq PersonRead.phone phone results in
  let results :=
    where_eq (λ p, date_str (PersonRead.birth_date p)) birth_date results in
  let results := where_any AddressBase.city city results in
  let results := where_any AddressBase.country country results in
  (Return results, st).

Definition get_person (person_id : UUID) : Handler PersonRead.t := λ st,
  match persons st !! person_id with
  | None => (Raise (HTTPException 404 "Person not found"), st)
  | Some item => (Return item, st)
  end.

Definition update_person (person_id : UUID) (upd : PersonUpdate.t)
    (fresh : UUID) (now : ServerAssigned) : Handler PersonRead.t := λ st,
  match persons st !! person_id with
  | None => (Raise (HTTPException 404 "Person not found"), st)
  | Some old =>
      let stored := PersonRead.model_dump old in
      let stored := update stored (PersonUpdate.model_dump_exclude_unset upd) in
      match PersonRead.init fresh now stored with
      | None => (Raise ValidationError, st)
      | Some r =>
          let st := set_persons (<[person_id := r]> (persons st)) st in
          match persons st !! person_id with
          | Some item => (Return item, st)
          | None => (Raise KeyError, st)
          end
      end
  end.

(** ** Ages *)

Definition create_age (payload : Age.t) : Handler Age.t := λ st,
  (Return payload, set_ages (<[Age.person_name payload := payload]> (ages st)) st).

Definition list_ages : Handler (list Age.t) := λ st,
  (Return (values (ages st)), st).

Definition get_age (person_name : string) : Handler Age.t := λ st,
  match ages st !! person_name with
  | None => (Raise (HTTPException 404 "Age record not found"), st)
  | Some item => (Return item, st)
  end.

Definition replace_age (person_name : string) (age : Age.t) : Handler Age.t := λ st,
  if decide (person_name ≠ Age.person_name age) then
    (Raise (HTTPException 400 "Person name in URL must match payload"), st)
  else
    (Return age, set_ages (<[person_name := age]> (ages st)) st).

Definition delete_age (person_name : string) : Handler unit := λ st,
  let '(popped, rest) := pop person_name (ages st) in
  let st := set_ages rest st in
  match popped with
  | None => (Raise (HTTPException 404 "Age record not found"), st)
  | Some _ => (Return tt, st)
  end.

(** ** Jobs *)

Definition create_job (payload : Job.t) : Handler Job.t := λ st,
  (Return payload, set_jobs (<[UUID_str (Job.id payload) := payload]> (jobs st)) st).

Definition list_jobs : Handler (list Job.t) := λ st,
  (Return (values (jobs st)), st).

Definition get_job (job_id : string) : Handler Job.t := λ st,
  match jobs st !! job_id with
  | None => (Raise (HTTPException 404 "Job not found"), st)
  | Some item => (Return item, st)
  end.

Definition replace_job (job_id : string) (job : Job.t) : Handler Job.t := λ st,
  if decide (UUID_str (Job.id job) ≠ job_id) then
    (Raise (HTTPException 400 "Job ID in URL must match payload"), st)
  else
    (Return job, set_jobs (<[job_id := job]> (jobs st)) st).

Definition delete_job (job_id : string) : Handler unit := λ st,
  let '(popped, rest) := pop job_id (jobs st) in
  let st := set_jobs rest st in
  match popped with
  | None => (Raise (HTTPException 404 "Job not found"), st)
  | Some _ => (Return tt, st)
  end.

(** ** Requests and reachable stores *)

(** One call of a handler, with what the environment supplies to it (the
    drawn identifier and the server-assigned fields). *)
Inductive Request :=
| CreateAddress (address : AddressCreate.t) (now : ServerAssigned)
| ListAddresses (street city state postal_code country : option string)
| GetAddress (address_id : UUID)
| UpdateAddress (address_id : UUID) (upd : AddressUpdate.t) (now : ServerAssigned)
| CreatePerson (person : PersonCreate.t) (fresh : UUID) (now : ServerAssigned)
| ListPersons
    (uni first_name last_name email phone birth_date city country : option string)
| GetPerson (person_id : UUID)
| UpdatePerson (person_id : UUID) (upd : PersonUpdate.t) (fresh : UUID)
    (now : ServerAssigned)
| CreateAge (payload : Age.t)
| ListAges
| GetAge (person_name : string)
| ReplaceAge (person_name : string) (age : Age.t)
| DeleteAge (person_name : string)
| CreateJob (payload : Job.t)
| ListJobs
| GetJob (job_id : string)
| ReplaceJob (job_id : string) (job : Job.t)
| DeleteJob (job_id : string).

(** The store a request leaves behind. *)
Definition handle (r : Request) (st : Store) : Store :=
  match r with
  | CreateAddress a now => (create_address a now st).2
  | ListAddresses s c r p n => (list_addresses s c r p n st).2
  | GetAddress i => (get_address i st).2
  | UpdateAddress i u now => (update_address i u now st).2
  | CreatePerson p fresh now => (create_person p fresh now st).2
  | ListPersons u f l e h b c n => (list_persons u f l e h b c n st).2
  | GetPerson i => (get_person i st).2
  | UpdatePerson i u fresh now => (update_person i u fresh now st).2
  | CreateAge p => (create_age p st).2
  | ListAges => (list_ages st).2
  | GetAge k => (get_age k st).2
  | ReplaceAge k a => (replace_age k a st).2
  | DeleteAge k => (delete_age k st).2
  | CreateJob p => (create_job p st).2
  | ListJobs => (list_jobs st).2
  | GetJob k => (get_job k st).2
  | ReplaceJob k j => (replace_job k j st).2
  | DeleteJob k => (delete_job k st).2
  end.

(** The store after serving the requests [rs] one after the other; the
    service starts from [empty_store]. *)
Definition serve (rs : list Request) (st : Store) : Store :=
  foldl (λ st r, handle r st) st rs.

(** Every entry of [ages] is keyed by its record's person_name, every entry
    of [jobs] by the string of its record's id. *)
Definition keys_consistent (st : Store) : Prop :=
  map_Forall (λ k a, k = Age.person_name a) (ages st) ∧
  map_Forall (λ k j, k = UUID_str (Job.id j)) (jobs st).

(** ** The merge of a partial update, field by field *)

(** The value of a field after an update: the payload's when the payload
    set the field to a value, the stored one when the payload left the field
    out. *)
Definition merge_field {A : Type} (old : A) (new : option (option A)) : A :=
  match new with
  | Some (Some v) => v
  | _ => old
  end.

Definition merge_address (old : AddressRead.t) (upd : AddressUpdate.t)
    : AddressRead.t :=
  AddressRead.mk
    (AddressBase.mk
       (AddressRead.id old)
       (merge_field (AddressRead.street old) (AddressUpdate.street upd))
       (merge_field (AddressRead.city old) (AddressUpdate.city upd))
       (merge_field (AddressRead.state old) (AddressUpdate.state upd))
       (merge_field (AddressRead.postal_code old) (AddressUpdate.postal_code upd))
       (merge_field (AddressRead.country old) (AddressUpdate.country upd)))
    (AddressRead.assigned old).

(** ** The filters of the list operations, as predicates on a record *)

(** A filter on one field holds of a record when the parameter was not
    provided or the field equals the parameter's value. *)
Definition param_matches {A : Type} (field : A → string)
    (param : option string) (x : A) : Prop :=
  match param with
  | Some v => field x = v
  | None => True
  end.

(** A filter on the embedded addresses holds of a person when the parameter
    was not provided or some embedded address has the value in the field. *)
Definition some_address_matches (field : AddressBase.t → string)
    (param : option string) (p : PersonRead.t) : Prop :=
  match param with
  | Some v => Exists (λ addr, field addr = v) (PersonRead.addresses p)
  | None => True
  end.

Definition address_matches (street city state postal_code country : option string)
    (a : AddressRead.t) : Prop :=
  param_matches AddressRead.street street a
  ∧ param_matches AddressRead.city city a
  ∧ param_matches AddressRead.state state a
  ∧ param_matches AddressRead.postal_code postal_code a
  ∧ param_matches AddressRead.country country a.

Definition person_matches
    (uni first_name last_name email phone birth_date city country : option string)
    (p : PersonRead.t) : Prop :=
  param_matches PersonRead.uni uni p
  ∧ param_matches PersonRead.first_name first_name p
  ∧ param_matches PersonRead.last_name last_name p
  ∧ param_matches PersonRead.email email p
  ∧ param_matches PersonRead.phone phone p
  ∧ param_matches (λ p, date_str (PersonRead.birth_date p)) birth_date p
  ∧ some_address_matches AddressBase.city city p
  ∧ some_address_matches AddressBase.country country p.

Global Instance param_matches_dec {A : Type}
    (field : A → string) (param : option string) (x : A) :
  Decision (param_matches field param x).
Proof. destruct param; simpl; apply _. Defined.

Global Instance some_address_matches_dec
    (field : AddressBase.t → string) (param : option string)
    (p : PersonRead.t) :
  Decision (some_address_matches field param p).
Proof. destruct param; simpl; apply _. Defined.

Global Instance address_matches_dec s c r p n a :
  Decision (address_matches s c r p n a).
Proof. unfold address_matches. apply _. Defined.

Global Instance person_matches_dec u f l e h b c n p :
  Decision (person_matches u f l e h b c n p).
Proof. unfold person_matches. apply _. Defined.

(** ** Responses

    What a request answers with: the handler's outcome, the returned value
    wrapped by the route it came from. *)
Inductive Response :=
| AddressBody (a : AddressRead.t)
| AddressList (l : list AddressRead.t)
| PersonBody (p : PersonRead.t)
| PersonList (l : list PersonRead.t)
| AgeBody (a : Age.t)
| AgeList (l : list Age.t)
| JobBody (j : Job.t)
| JobList (l : list Job.t)
| NoContent.

Definition answer {A : Type} (wrap : A → Response) (o : Outcome A * Store)
    : Outcome Response * Store :=
  (match o.1 with
   | Return a => Return (wrap a)
   | Raise e => Raise e
   end, o.2).

Definition respond (r : Request) (st : Store) : Outcome Response * Store :=
  match r with
  | CreateAddress a now => answer AddressBody (create_address a now st)
  | ListAddresses s c r p n => answer AddressList (list_addresses s c r p n st)
  | GetAddress i => answer AddressBody (get_address i st)
  | UpdateAddress i u now => answer AddressBody (update_address i u now st)
  | CreatePerson p fresh now => answer PersonBody (create_person p fresh now st)
  | ListPersons u f l e h b c n =>
      answer PersonList (list_persons u f l e h b c n st)
  | GetPerson i => answer PersonBody (get_person i st)
  | UpdatePerson i u fresh now =>
      answer PersonBody (update_person i u fresh now st)
  | CreateAge p => answer AgeBody (create_age p st)
  | ListAges => answer AgeList (list_ages st)
  | GetAge k => answer AgeBody (get_age k st)
  | ReplaceAge k a => answer AgeBody (replace_age k a st)
  | DeleteAge k => answer (λ _, NoContent) (delete_age k st)
  | CreateJob p => answer JobBody (create_job p st)
  | ListJobs => answer JobList (list_jobs st)
  | GetJob k => answer JobBody (get_job k st)
  | ReplaceJob k j => answer JobBody (replace_job k j st)
  | DeleteJob k => answer (λ _, NoContent) (delete_job k st)
  end.

(** The key of each table a request may write to. *)
Definition address_written (r : Request) : option UUID :=
  match r with
  | CreateAddress a _ => Some (AddressBase.id a)
  | UpdateAddress i _ _ => Some i
  | _ => None
  end.

Definition person_written (r : Request) : option UUID :=
  match r with
  | CreatePerson _ fresh _ => Some fresh
  | UpdatePerson i _ _ _ => Some i
  | _ => None
  end.

Definition age_written (r : Request) : option string :=
  match r with
  | CreateAge p => Some (Age.person_name p)
  | ReplaceAge k _ => Some k
  | DeleteAge k => Some k
  | _ => None
  end.

Definition job_written (r : Request) : option string :=
  match r with
  | CreateJob p => Some (UUID_str (Job.id p))
  | ReplaceJob k _ => Some k
  | DeleteJob k => Some k
  | _ => None
  end.

(** The requests that only read: the list and get operations. *)
Definition reads_only (r : Request) : bool :=
  match r with
  | ListAddresses _ _ _ _ _ | GetAddress _
  | ListPersons _ _ _ _ _ _ _ _ | GetPerson _
  | ListAges | GetAge _ | ListJobs | GetJob _ => true
  | _ => false
  end.

(** ** Fixed-width numerals in a base *)

(** The [width] low digits of [n] in base [base], most significant first,
    each digit written by [digit]. *)
Fixpoint digits_fixed (base : N) (digit : N → ascii) (width : nat) (n : N)
    : string :=
  match width with
  | O => ""
  | S w => String (digit ((n / base ^ N.of_nat w) mod base))
                  (digits_fixed base digit w n)
  end.

(** The identifiers Python builds: their integer is below [2 ^ 128]. *)
Definition uuid_in_range (u : UUID) : Prop := uuid_int u < 2 ^ 128.

(** The dates Python builds have a year below 10000; nothing more is needed
    of a date here than two-digit months and days. *)
Definition date_in_range (d : date) : Prop :=
  year d < 10000 ∧ month d < 100 ∧ day d < 100.

(** The merge of a stored Person with an update payload, field by field. *)
Definition merge_person (old : PersonRead.t) (upd : PersonUpdate.t)
    : PersonRead.t :=
  PersonRead.mk
    (PersonRead.id old)
    (PersonBase.mk
       (merge_field (PersonRead.uni old) (PersonUpdate.uni upd))
       (merge_field (PersonRead.first_name old) (PersonUpdate.first_name upd))
       (merge_field (PersonRead.last_name old) (PersonUpdate.last_name upd))
       (merge_field (PersonRead.email old) (PersonUpdate.email upd))
       (merge_field (PersonRead.phone old) (PersonUpdate.phone upd))
       (merge_field (PersonRead.birth_date old) (PersonUpdate.birth_date upd))
       (merge_field (PersonRead.addresses old) (PersonUpdate.addresses upd)))
    (PersonRead.assigned old).

(** Every entry of [addresses] and of [persons] is keyed by its record's
    id. *)
Definition ids_consistent (st : Store) : Prop :=
  map_Forall (λ k a, k = AddressRead.id a) (addresses st) ∧
  map_Forall (λ k p, k = PersonRead.id p) (persons st).

(** The update payloads that set nothing. *)
Definition empty_address_update : AddressUpdate.t :=
  AddressUpdate.mk None None None None None.

Definition empty_person_update : PersonUpdate.t :=
  PersonUpdate.mk None None None None None None None.

(** ** Sample records

    The examples of [models/age.py] and [models/job.py], and the records of
    the spec's examples. *)
Module Sample.
Definition now : ServerAssigned := mkAssigned "2025-01-15T10:20:30Z".

Definition id1 : UUID := mkUUID 0x550e8400e29b41d4a716446655440000.
Definition id2 : UUID := mkUUID 0x99999999999949999999999999999999.

Definition ada : Age.t :=
  Age.mk "Ada Lovelace" (mkDate 1815 12 10) (Some 36%Z).

Definition ada_again : Age.t :=
  Age.mk "Ada Lovelace" (mkDate 1815 12 10) None.

Definition engineer : Job.t :=
  Job.mk id1 "Software Engineer" "GitHub" (mkDate 2023 6 1) None true.

Definition addr_ny : AddressBase.t :=
  AddressBase.mk id1 "A" "NY" "NY" "10027" "USA".

Definition addr_ca : AddressBase.t :=
  AddressBase.mk id2 "B" "NY" "CA" "94105" "USA".

Definition addr_paris : AddressBase.t :=
  AddressBase.mk id1 "1 Rue A" "Paris" "IDF" "75001" "France".

Definition addr_rome : AddressBase.t :=
  AddressBase.mk id2 "2 Via B" "Rome" "RM" "00184" "Italy".

Definition traveller : PersonBase.t :=
  PersonBase.mk "abc1234" "Ada" "Lovelace" "ada@example.com" "+44-20-5550-0100"
    (mkDate 1815 12 10) [addr_paris; addr_rome].

(** A store holding [addr_ny] and [addr_ca], an age and a job. *)
Definition store : Store :=
  serve [CreateAddress addr_ny now; CreateAddress addr_ca now;
         CreateAge ada; CreateJob engineer] empty_store.
(** The spec's update example: street A and city B, updated with city C. *)
Definition addr_ab : AddressBase.t :=
  AddressBase.mk id1 "A" "B" "NY" "10027" "USA".

Definition city_c : AddressUpdate.t :=
  AddressUpdate.mk None (Some (Some "C")) None None None.

Definition store_ab : Store :=
  serve [CreateAddress addr_ab now] empty_store.

(** A payload that sets the street to null and leaves the rest out. *)
Definition street_null : AddressUpdate.t :=
  AddressUpdate.mk (Some None) None None None None.
End Sample.

(** * Properties *)

(** ** Dumping a model and building it again *)

(** Looks a literal key up in a dict built by a chain of inserts. *)
Ltac kw_lookup :=
  repeat first
    [ rewrite lookup_insert_eq
    | rewrite lookup_insert_ne by done
    | rewrite lookup_empty ].

Lemma AddressBase_init_dump a :
  AddressBase.init (AddressBase.model_dump a) = Some a.
Proof.
  destruct a as [i s c r p n].
  unfold AddressBase.init, AddressBase.model_dump; simpl.
  by kw_lookup.
Qed.

Lemma AddressBase_dump_no_assigned a :
  AddressBase.model_dump a !! "assigned" = None.
Proof. unfold AddressBase.model_dump. by kw_lookup. Qed.

Lemma AddressRead_init_create now a :
  AddressRead.init now (AddressBase.model_dump a) = Some (AddressRead.mk a now).
Proof.
  unfold AddressRead.init.
  by rewrite AddressBase_init_dump, AddressBase_dump_no_assigned.
Qed.

Lemma load_addresses_dump l :
  mapM PersonBase.load_address
       ((λ a, PDict (AddressBase.model_dump a)) <$> l) = Some l.
Proof.
  induction l as [|a l IH]; [done|].
  cbn [fmap list_fmap mapM]. simpl.
  rewrite AddressBase_init_dump. simpl. fold (@mapM option _ _).
  by rewrite IH.
Qed.

Lemma PersonBase_init_dump p :
  PersonBase.init (PersonBase.model_dump p) = Some p.
Proof.
  destruct p as [u f l e h b a].
  unfold PersonBase.init, PersonBase.model_dump; simpl.
  kw_lookup; simpl.
  by rewrite load_addresses_dump.
Qed.

Lemma PersonRead_init_create fresh now p :
  PersonRead.init fresh now (PersonBase.model_dump p)
  = Some (PersonRead.mk fresh p now).
Proof.
  unfold PersonRead.init.
  rewrite PersonBase_init_dump.
  unfold PersonBase.model_dump. by kw_lookup.
Qed.

(** ** The stored dict after [stored.update(...)] *)

Lemma lookup_dump_set_eq k f d :
  AddressUpdate.dump_set k f d !! k = match f with
                                      | Some v => Some (dump_opt PStr v)
                                      | None => d !! k
                                      end.
Proof. destruct f; simpl; [apply lookup_insert_eq | done]. Qed.

Lemma lookup_dump_set_ne k k' f d :
  k ≠ k' → AddressUpdate.dump_set k f d !! k' = d !! k'.
Proof. intros ?. destruct f; simpl; [by apply lookup_insert_ne | done]. Qed.

Ltac upd_lookup :=
  unfold AddressUpdate.model_dump_exclude_unset;
  repeat first
    [ rewrite lookup_dump_set_eq
    | rewrite lookup_dump_set_ne by done
    | rewrite lookup_empty ].

Lemma lookup_update_field (stored upd : gmap string pyval) k :
  update stored upd !! k = match upd !! k with
                           | Some v => Some v
                           | None => stored !! k
                           end.
Proof.
  unfold update. rewrite lookup_union.
  by destruct (upd !! k), (stored !! k).
Qed.

Lemma AddressRead_init_update now old upd :
  AddressRead.init now
    (update (AddressRead.model_dump old)
            (AddressUpdate.model_dump_exclude_unset upd))
  = if AddressUpdate.sets_null upd then None
    else Some (merge_address old upd).
Proof.
  destruct old as [[i s c r p n] a], upd as [us uc ur up un].
  unfold AddressRead.init, AddressBase.init.
  rewrite !lookup_update_field.
  upd_lookup.
  unfold AddressRead.model_dump, AddressBase.model_dump; simpl.
  kw_lookup; simpl.
  destruct us as [[?|]|], uc as [[?|]|], ur as [[?|]|], up as [[?|]|],
           un as [[?|]|]; reflexivity.
Qed.

(** ** Stores *)

Lemma set_ages_same st : set_ages (ages st) st = st.
Proof. by destruct st. Qed.

Lemma set_jobs_same st : set_jobs (jobs st) st = st.
Proof. by destruct st. Qed.

Lemma pop_absent {K : Type} `{Countable K} {V : Type} (k : K) (d : gmap K V) :
  d !! k = None → pop k d = (None, d).
Proof. intros Hk. unfold pop. by rewrite Hk, delete_id. Qed.

Lemma pop_present {K : Type} `{Countable K} {V : Type} (k : K) (d : gmap K V) v :
  d !! k = Some v → pop k d = (Some v, delete k d) ∧ delete k d !! k = None.
Proof. intros Hk. unfold pop. rewrite Hk. split; [done | apply lookup_delete_eq]. Qed.

(** ** Address create (C1) *)

(** C1. Creating an Address whose id is already a key of the address table
    raises the duplicate-id error (Conflict, sent as HTTP 400) and leaves the
    store as it was; creating one whose id is not a key stores the record
    under that id and returns the stored record, which carries every field of
    the request, id included. *)
Theorem create_address_conflict_or_stored
    (address : AddressCreate.t) (now : ServerAssigned) (st : Store) :
  (is_Some (addresses st !! AddressBase.id address) →
     create_address address now st
     = (Raise (HTTPException 400 "Address with this ID already exists"), st))
  ∧ (addresses st !! AddressBase.id address = None →
     ∃ r st',
       create_address address now st = (Return r, st')
       ∧ addresses st' = <[AddressBase.id address := r]> (addresses st)
       ∧ addresses st' !! AddressBase.id address = Some r
       ∧ AddressRead.base r = address
       ∧ persons st' = persons st ∧ ages st' = ages st ∧ jobs st' = jobs st).
Proof.
  split; intros Hk; unfold create_address.
  - by rewrite decide_True.
  - rewrite decide_False by (rewrite Hk; by intros [? ?]).
    rewrite AddressRead_init_create. cbn [set_addresses addresses].
    rewrite lookup_insert_eq.
    eexists _, _. split; [reflexivity|].
    cbn [set_addresses addresses persons ages jobs AddressRead.base].
    by rewrite lookup_insert_eq.
Qed.

Lemma create_address_conflict_or_stored_witness :
  create_address Sample.addr_ny Sample.now Sample.store
  = (Raise (HTTPException 400 "Address with this ID already exists"), Sample.store)
  ∧ ∃ r st',
      create_address Sample.addr_ny Sample.now empty_store = (Return r, st')
      ∧ addresses st' = <[Sample.id1 := r]> ∅
      ∧ addresses st' !! Sample.id1 = Some r
      ∧ AddressRead.base r = Sample.addr_ny
      ∧ persons st' = ∅ ∧ ages st' = ∅ ∧ jobs st' = ∅.
Proof.
  split.
  - apply (create_address_conflict_or_stored Sample.addr_ny Sample.now Sample.store).
    vm_compute. eauto.
  - apply (create_address_conflict_or_stored Sample.addr_ny Sample.now empty_store).
    reflexivity.
Defined.

(** ** Address partial update (C3) *)

Lemma update_address_present address_id upd now st old :
  addresses st !! address_id = Some old →
  update_address address_id upd now st
  = if AddressUpdate.sets_null upd then (Raise ValidationError, st)
    else (Return (merge_address old upd),
          set_addresses (<[address_id := merge_address old upd]> (addresses st)) st).
Proof.
  intros Hk. unfold update_address. rewrite Hk, AddressRead_init_update.
  destruct (AddressUpdate.sets_null upd); [done|].
  cbn [set_addresses addresses]. by rewrite lookup_insert_eq.
Qed.

(** C3, as the handler has it. Updating an Address whose id is absent from
    the table raises NotFound (HTTP 404) and changes nothing; when a record
    is stored under the id and the payload sets no field to null, the update
    stores and returns the merge of that record with the payload: each field
    holds the payload's value when the payload set it and the stored value
    when the payload left it out; the id and the server-assigned fields are
    the stored ones. *)
Theorem update_address_merges
    (address_id : UUID) (upd : AddressUpdate.t) (now : ServerAssigned)
    (st : Store) :
  (addresses st !! address_id = None →
     update_address address_id upd now st
     = (Raise (HTTPException 404 "Address not found"), st))
  ∧ (∀ old, addresses st !! address_id = Some old →
            AddressUpdate.sets_null upd = false →
       update_address address_id upd now st
       = (Return (merge_address old upd),
          set_addresses (<[address_id := merge_address old upd]> (addresses st)) st)
       ∧ addresses (update_address address_id upd now st).2 !! address_id
         = Some (merge_address old upd)).
Proof.
  split.
  - intros Hk. unfold update_address. by rewrite Hk.
  - intros old Hk Hnull. rewrite (update_address_present _ _ _ _ _ Hk), Hnull.
    split; [done|]. cbn [snd set_addresses addresses]. apply lookup_insert_eq.
Qed.

Lemma update_address_merges_witness :
  update_address Sample.id2 Sample.city_c Sample.now Sample.store_ab
  = (Raise (HTTPException 404 "Address not found"), Sample.store_ab)
  ∧ (update_address Sample.id1 Sample.city_c Sample.now Sample.store_ab).1
    = Return (AddressRead.mk
                (AddressBase.mk Sample.id1 "A" "C" "NY" "10027" "USA")
                Sample.now).
Proof.
  split.
  - by apply (update_address_merges Sample.id2 Sample.city_c Sample.now
                Sample.store_ab).
  - pose proof (proj2 (update_address_merges Sample.id1 Sample.city_c Sample.now
                         Sample.store_ab)
                  (AddressRead.mk Sample.addr_ab Sample.now) eq_refl eq_refl)
      as [Hup _].
    by rewrite Hup.
Defined.

(** A payload that sets the street to null is not merged into the stored
    record: the merged dict fails the re-validation, the update raises and
    the record stored under the id stays as it was. *)
Lemma update_address_null_not_merged :
  addresses Sample.store_ab !! Sample.id1
  = Some (AddressRead.mk Sample.addr_ab Sample.now)
  ∧ update_address Sample.id1 Sample.street_null Sample.now Sample.store_ab
    = (Raise ValidationError, Sample.store_ab)
  ∧ ¬ ∃ r st',
        update_address Sample.id1 Sample.street_null Sample.now Sample.store_ab
        = (Return r, st').
Proof.
  assert (Hup : update_address Sample.id1 Sample.street_null Sample.now
                  Sample.store_ab = (Raise ValidationError, Sample.store_ab)).
  { by rewrite (update_address_present _ _ _ _
                  (AddressRead.mk Sample.addr_ab Sample.now)). }
  split; [done|]. split; [done|].
  intros (r & st' & Hret). by rewrite Hup in Hret.
Qed.

(** ** Create, replace and delete of ages and jobs (C2, C5, C6) *)

(** C5. Creating an Age stores the payload under its person_name, and
    creating a Job stores it under the string of its id, whatever the table
    held: the operation always returns the payload, never raises (so never
    Conflict), and the key maps to the payload afterwards, a record stored
    there before being overwritten. *)
Theorem create_age_job_upsert (age : Age.t) (job : Job.t) (st : Store) :
  (create_age age st
   = (Return age, set_ages (<[Age.person_name age := age]> (ages st)) st)
   ∧ ages (create_age age st).2 !! Age.person_name age = Some age)
  ∧ (create_job job st
     = (Return job, set_jobs (<[UUID_str (Job.id job) := job]> (jobs st)) st)
     ∧ jobs (create_job job st).2 !! UUID_str (Job.id job) = Some job).
Proof.
  repeat split; unfold create_age, create_job; cbn [snd set_ages set_jobs ages jobs];
    apply lookup_insert_eq.
Qed.

(** C2. Replacing an Age under a path key that differs from the payload's
    person_name, or a Job under a path id that differs from the string of
    the payload's id, raises BadRequest (HTTP 400) and leaves the store as it
    was, whether or not the path key is in the table; when they are equal the
    payload is stored under the key, whatever the table held, and is
    returned. *)
Theorem replace_age_job_mismatch_or_upsert
    (person_name job_id : string) (age : Age.t) (job : Job.t) (st : Store) :
  (person_name ≠ Age.person_name age →
     replace_age person_name age st
     = (Raise (HTTPException 400 "Person name in URL must match payload"), st))
  ∧ (person_name = Age.person_name age →
     replace_age person_name age st
     = (Return age, set_ages (<[person_name := age]> (ages st)) st)
     ∧ ages (replace_age person_name age st).2 !! person_name = Some age)
  ∧ (job_id ≠ UUID_str (Job.id job) →
     replace_job job_id job st
     = (Raise (HTTPException 400 "Job ID in URL must match payload"), st))
  ∧ (job_id = UUID_str (Job.id job) →
     replace_job job_id job st
     = (Return job, set_jobs (<[job_id := job]> (jobs st)) st)
     ∧ jobs (replace_job job_id job st).2 !! job_id = Some job).
Proof.
  unfold replace_age, replace_job.
  split; [|split; [|split]]; intros Hk.
  - by rewrite decide_True.
  - rewrite decide_False by (by intros ?). split; [done|].
    cbn [snd set_ages ages]. apply lookup_insert_eq.
  - by rewrite decide_True.
  - rewrite decide_False by (by intros ?). split; [done|].
    cbn [snd set_jobs jobs]. apply lookup_insert_eq.
Qed.

Lemma replace_age_job_mismatch_or_upsert_witness :
  let st := Sample.store in
  (replace_age "Grace Hopper" Sample.ada st
   = (Raise (HTTPException 400 "Person name in URL must match payload"), st))
  ∧ (replace_age "Ada Lovelace" Sample.ada_again st
     = (Return Sample.ada_again,
        set_ages (<["Ada Lovelace" := Sample.ada_again]> (ages st)) st)
     ∧ ages (replace_age "Ada Lovelace" Sample.ada_again st).2 !! "Ada Lovelace"
       = Some Sample.ada_again)
  ∧ (replace_job "550E8400-E29B-41D4-A716-446655440000" Sample.engineer st
     = (Raise (HTTPException 400 "Job ID in URL must match payload"), st))
  ∧ (replace_job "550e8400-e29b-41d4-a716-446655440000" Sample.engineer empty_store
     = (Return Sample.engineer,
        set_jobs (<["550e8400-e29b-41d4-a716-446655440000" := Sample.engineer]> ∅)
          empty_store)
     ∧ jobs (replace_job "550e8400-e29b-41d4-a716-446655440000" Sample.engineer
               empty_store).2 !! "550e8400-e29b-41d4-a716-446655440000"
       = Some Sample.engineer).
Proof.
  intros st.
  pose proof (replace_age_job_mismatch_or_upsert
                "Grace Hopper" "550E8400-E29B-41D4-A716-446655440000"
                Sample.ada Sample.engineer st) as (Hage & _ & Hjob & _).
  pose proof (replace_age_job_mismatch_or_upsert
                "Ada Lovelace" "550e8400-e29b-41d4-a716-446655440000"
                Sample.ada_again Sample.engineer st) as (_ & Hage' & _ & _).
  pose proof (replace_age_job_mismatch_or_upsert
                "Ada Lovelace" "550e8400-e29b-41d4-a716-446655440000"
                Sample.ada_again Sample.engineer empty_store) as (_ & _ & _ & Hjob').
  split; [|split; [|split]].
  - apply Hage. vm_compute. discriminate.
  - apply Hage'. reflexivity.
  - apply Hjob. vm_compute. discriminate.
  - apply Hjob'. reflexivity.
Defined.

(** C6. Deleting an Age or a Job whose key is absent raises NotFound
    (HTTP 404) and leaves the store as it was; deleting one whose key is
    present returns no content and removes the entry, so that a Get for the
    same key on the resulting store raises NotFound. *)
Theorem delete_age_job_removes (person_name job_id : string) (st : Store) :
  (ages st !! person_name = None →
     delete_age person_name st
     = (Raise (HTTPException 404 "Age record not found"), st))
  ∧ (is_Some (ages st !! person_name) →
     ∃ st',
       delete_age person_name st = (Return tt, st')
       ∧ ages st' = delete person_name (ages st)
       ∧ get_age person_name st'
         = (Raise (HTTPException 404 "Age record not found"), st'))
  ∧ (jobs st !! job_id = None →
     delete_job job_id st = (Raise (HTTPException 404 "Job not found"), st))
  ∧ (is_Some (jobs st !! job_id) →
     ∃ st',
       delete_job job_id st = (Return tt, st')
       ∧ jobs st' = delete job_id (jobs st)
       ∧ get_job job_id st' = (Raise (HTTPException 404 "Job not found"), st')).
Proof.
  unfold delete_age, delete_job.
  split; [|split; [|split]].
  - intros Hk. by rewrite (pop_absent _ _ Hk), set_ages_same.
  - intros [v Hk]. destruct (pop_present _ _ _ Hk) as [-> Hgone].
    eexists. split; [reflexivity|]. split; [done|].
    unfold get_age. cbn [set_ages ages]. by rewrite Hgone.
  - intros Hk. by rewrite (pop_absent _ _ Hk), set_jobs_same.
  - intros [v Hk]. destruct (pop_present _ _ _ Hk) as [-> Hgone].
    eexists. split; [reflexivity|]. split; [done|].
    unfold get_job. cbn [set_jobs jobs]. by rewrite Hgone.
Qed.

Lemma delete_age_job_removes_witness :
  let st := Sample.store in
  (delete_age "Grace Hopper" st
   = (Raise (HTTPException 404 "Age record not found"), st))
  ∧ (∃ st',
       delete_age "Ada Lovelace" st = (Return tt, st')
       ∧ ages st' = delete "Ada Lovelace" (ages st)
       ∧ get_age "Ada Lovelace" st'
         = (Raise (HTTPException 404 "Age record not found"), st'))
  ∧ (delete_job "no-such-job" st
     = (Raise (HTTPException 404 "Job not found"), st))
  ∧ (∃ st',
       delete_job "550e8400-e29b-41d4-a716-446655440000" st = (Return tt, st')
       ∧ jobs st' = delete "550e8400-e29b-41d4-a716-446655440000" (jobs st)
       ∧ get_job "550e8400-e29b-41d4-a716-446655440000" st'
         = (Raise (HTTPException 404 "Job not found"), st')).
Proof.
  intros st.
  pose proof (delete_age_job_removes "Grace Hopper" "no-such-job" st)
    as (Hage & _ & Hjob & _).
  pose proof (delete_age_job_removes "Ada Lovelace"
                "550e8400-e29b-41d4-a716-446655440000" st)
    as (_ & Hage' & _ & Hjob').
  split; [|split; [|split]].
  - apply Hage. reflexivity.
  - apply Hage'. vm_compute. eauto.
  - apply Hjob. reflexivity.
  - apply Hjob'. vm_compute. eauto.
Defined.

(** ** Listing with filters (C7, C8) *)

Section filters.
Context {A : Type}.

Lemma filter_all (P : A → Prop) `{!∀ x, Decision (P x)} (l : list A) :
  (∀ x, P x) → filter P l = l.
Proof.
  intros HP. induction l as [|x l IH]; [done|].
  rewrite filter_cons_True by apply HP. by rewrite IH.
Qed.

Lemma where_eq_filter (field : A → string) (param : option string)
    (l : list A) :
  where_eq field param l = filter (param_matches field param) l.
Proof.
  destruct param as [v|]; simpl.
  - by apply list_filter_iff.
  - by rewrite filter_all.
Qed.

Lemma elem_of_values {K : Type} `{Countable K} (d : gmap K A) (x : A) :
  x ∈ values d ↔ ∃ k, d !! k = Some x.
Proof.
  unfold values. rewrite list_elem_of_fmap. split.
  - intros [[k y] [-> Hin]]. exists k. by apply elem_of_map_to_list.
  - intros [k Hk]. exists (k, x). split; [done|]. by apply elem_of_map_to_list.
Qed.
End filters.

Lemma any_eq_Exists field v addrs :
  any_eq field v addrs = true ↔ Exists (λ addr, field addr = v) addrs.
Proof.
  unfold any_eq. induction addrs as [|a l IH]; simpl.
  - split; [done | by intros ?%Exists_nil].
  - rewrite Exists_cons, orb_true_iff, bool_decide_eq_true. by rewrite IH.
Qed.

Lemma where_any_filter field param l :
  where_any field param l = filter (some_address_matches field param) l.
Proof.
  destruct param as [v|]; simpl.
  - apply list_filter_iff. intros p. apply any_eq_Exists.
  - by rewrite filter_all.
Qed.

Lemma list_addresses_as_filter street city state postal_code country st :
  list_addresses street city state postal_code country st
  = (Return (filter (address_matches street city state postal_code country)
               (values (addresses st))), st).
Proof.
  unfold list_addresses. rewrite !where_eq_filter, !list_filter_filter.
  do 2 f_equal. apply list_filter_iff.
  intros a. unfold address_matches. tauto.
Qed.

Lemma list_persons_as_filter uni first_name last_name email phone birth_date
    city country st :
  list_persons uni first_name last_name email phone birth_date city country st
  = (Return (filter (person_matches uni first_name last_name email phone
                       birth_date city country)
               (values (persons st))), st).
Proof.
  unfold list_persons.
  rewrite !where_any_filter, !where_eq_filter, !list_filter_filter.
  do 2 f_equal. apply list_filter_iff.
  intros p. unfold person_matches. tauto.
Qed.

(** C7. Whatever the address table holds and whichever of the filters
    street, city, state, postal_code and country are provided, the list
    operation returns the stored records that equal every provided filter in
    the filter's field, and only those: a record is in the result exactly
    when it is stored under some key and matches all provided filters. With
    no filter it returns all stored records. The store is left as it was. *)
Theorem list_addresses_conjunctive
    (street city state postal_code country : option string) (st : Store) :
  ∃ results,
    list_addresses street city state postal_code country st = (Return results, st)
    ∧ results = filter (address_matches street city state postal_code country)
                  (values (addresses st))
    ∧ (∀ a, a ∈ results ↔
            (∃ k, addresses st !! k = Some a)
            ∧ address_matches street city state postal_code country a)
    ∧ list_addresses None None None None None st
      = (Return (values (addresses st)), st).
Proof.
  eexists. split; [apply list_addresses_as_filter|].
  split; [reflexivity|]. split; [|reflexivity].
  intros a. rewrite list_elem_of_filter, elem_of_values. tauto.
Qed.

(** C8. Whatever the person table holds, the list operation returns the
    stored persons that satisfy every provided filter, and only those, where
    a city (respectively country) filter is satisfied by a person when some
    address of the embedded list has that city (respectively country), and
    each other filter when the person's field equals it (the birth date
    through its string). In particular with a city filter alone the result
    is exactly the stored persons with some embedded address in that city,
    and likewise for country. The store is left as it was. *)
Theorem list_persons_any_address
    (uni first_name last_name email phone birth_date city country : option string)
    (st : Store) :
  (∃ results,
     list_persons uni first_name last_name email phone birth_date city country st
     = (Return results, st)
     ∧ results
       = filter (person_matches uni first_name last_name email phone birth_date
                   city country)
           (values (persons st))
     ∧ ∀ p, p ∈ results ↔
            (∃ k, persons st !! k = Some p)
            ∧ person_matches uni first_name last_name email phone birth_date
                city country p)
  ∧ (∀ v, ∃ results,
       list_persons None None None None None None (Some v) None st
       = (Return results, st)
       ∧ ∀ p, p ∈ results ↔
              (∃ k, persons st !! k = Some p)
              ∧ ∃ addr, addr ∈ PersonRead.addresses p
                        ∧ AddressBase.city addr = v)
  ∧ (∀ v, ∃ results,
       list_persons None None None None None None None (Some v) st
       = (Return results, st)
       ∧ ∀ p, p ∈ results ↔
              (∃ k, persons st !! k = Some p)
              ∧ ∃ addr, addr ∈ PersonRead.addresses p
                        ∧ AddressBase.country addr = v).
Proof.
  split; [|split].
  - eexists. split; [apply list_persons_as_filter|]. split; [reflexivity|].
    intros p. rewrite list_elem_of_filter, elem_of_values. tauto.
  - intros v. eexists. split; [apply list_persons_as_filter|].
    intros p. rewrite list_elem_of_filter, elem_of_values.
    unfold person_matches; simpl. rewrite Exists_exists. tauto.
  - intros v. eexists. split; [apply list_persons_as_filter|].
    intros p. rewrite list_elem_of_filter, elem_of_values.
    unfold person_matches; simpl. rewrite Exists_exists. tauto.
Qed.

(** The spec's examples: of the addresses with city NY and states NY and
    CA, the filters city=NY and state=CA select the second alone; a person
    with addresses in Paris and Rome is listed under city=Rome. *)
Example list_addresses_ny_ca :
  (list_addresses None (Some "NY") (Some "CA") None None Sample.store).1
  = Return [AddressRead.mk Sample.addr_ca Sample.now].
Proof. vm_compute. reflexivity. Qed.

Example list_persons_rome :
  let st := serve [CreatePerson Sample.traveller Sample.id1 Sample.now] empty_store in
  (list_persons None None None None None None (Some "Rome") None st).1
  = Return [PersonRead.mk Sample.id1 Sample.traveller Sample.now]
  ∧ (list_persons None None None None None None (Some "Rome") (Some "France") st).1
    = Return [PersonRead.mk Sample.id1 Sample.traveller Sample.now]
  ∧ (list_persons None None None None None None (Some "Oslo") None st).1
    = Return [].
Proof. vm_compute. auto. Qed.

(** ** Create then get (C9) *)

(** C9. After a create that succeeded, a Get with the key of the returned
    record (its id for an Address or a Person, its person_name for an Age,
    the string of its id for a Job) succeeds on the resulting store and
    returns the very record the create returned, server-assigned fields
    included. Creating a Person, an Age or a Job always succeeds. *)
Theorem create_then_get_round_trip :
  (∀ address now st r st',
     create_address address now st = (Return r, st') →
     get_address (AddressRead.id r) st' = (Return r, st'))
  ∧ (∀ person fresh now st,
       ∃ r st',
         create_person person fresh now st = (Return r, st')
         ∧ get_person (PersonRead.id r) st' = (Return r, st'))
  ∧ (∀ payload st,
       ∃ r st',
         create_age payload st = (Return r, st')
         ∧ get_age (Age.person_name r) st' = (Return r, st'))
  ∧ (∀ payload st,
       ∃ r st',
         create_job payload st = (Return r, st')
         ∧ get_job (UUID_str (Job.id r)) st' = (Return r, st')).
Proof.
  split; [|split; [|split]].
  - intros address now st r st'. unfold create_address.
    case_decide; [done|].
    rewrite AddressRead_init_create. cbn [set_addresses addresses].
    rewrite lookup_insert_eq. intros [= <- <-].
    unfold get_address, AddressRead.id. cbn [set_addresses addresses AddressRead.base].
    by rewrite lookup_insert_eq.
  - intros person fresh now st. unfold create_person.
    rewrite PersonRead_init_create. eexists _, _. split; [reflexivity|].
    unfold get_person. cbn [set_persons persons PersonRead.id].
    by rewrite lookup_insert_eq.
  - intros payload st. eexists _, _. split; [reflexivity|].
    unfold get_age. cbn [set_ages ages]. by rewrite lookup_insert_eq.
  - intros payload st. eexists _, _. split; [reflexivity|].
    unfold get_job. cbn [set_jobs jobs]. by rewrite lookup_insert_eq.
Qed.

Lemma create_then_get_round_trip_witness :
  let r := AddressRead.mk Sample.addr_ny Sample.now in
  let st' := set_addresses (<[Sample.id1 := r]> ∅) empty_store in
  create_address Sample.addr_ny Sample.now empty_store = (Return r, st')
  ∧ get_address (AddressRead.id r) st' = (Return r, st').
Proof.
  intros r st'.
  assert (Hpost : create_address Sample.addr_ny Sample.now empty_store
                  = (Return r, st')) by reflexivity.
  split; [exact Hpost|].
  exact (proj1 create_then_get_round_trip
           Sample.addr_ny Sample.now empty_store r st' Hpost).
Defined.

(** ** Keys and records agree (C10) *)

Lemma handle_keys_consistent r st :
  keys_consistent st → keys_consistent (handle r st).
Proof.
  intros [Hages Hjobs].
  destruct r; cbn [handle];
    unfold create_address, list_addresses, get_address, update_address,
           create_person, list_persons, get_person, update_person,
           create_age, list_ages, get_age, replace_age, delete_age,
           create_job, list_jobs, get_job, replace_job, delete_job, pop;
    repeat first [case_decide | case_match]; simplify_eq;
    split; cbn [snd set_persons set_addresses set_ages set_jobs ages jobs];
    try done;
    first [by apply map_Forall_insert_2 | by apply map_Forall_delete].
Qed.

Lemma serve_keys_consistent rs st :
  keys_consistent st → keys_consistent (serve rs st).
Proof.
  revert st. induction rs as [|r rs IH]; intros st Hst; [done|].
  apply IH. by apply handle_keys_consistent.
Qed.

(** C10. In the store reached from the empty stores by any sequence of
    requests (creates, replaces and deletes, and the other operations as
    well), every entry of the ages table is keyed by its record's
    person_name and every entry of the jobs table by the string of its
    record's id. *)
Theorem reachable_keys_consistent (rs : list Request) :
  keys_consistent (serve rs empty_store).
Proof.
  apply serve_keys_consistent.
  split; apply map_Forall_empty.
Qed.

(** ** The strings of identifiers and dates *)

Example UUID_str_example :
  UUID_str Sample.id1 = "550e8400-e29b-41d4-a716-446655440000"
  ∧ UUID_str Sample.id2 = "99999999-9999-4999-9999-999999999999".
Proof. by vm_compute. Qed.

Example date_str_example :
  date_str (mkDate 1815 12 10) = "1815-12-10"
  ∧ date_str (mkDate 33 1 2) = "0033-01-02".
Proof. by vm_compute. Qed.

(** * Further properties of the handlers *)

Lemma handle_respond r st : handle r st = (respond r st).2.
Proof. by destruct r. Qed.

(** Unfolds every handler. *)
Ltac unfold_handlers :=
  unfold create_address, list_addresses, get_address, update_address,
         create_person, list_persons, get_person, update_person,
         create_age, list_ages, get_age, replace_age, delete_age,
         create_job, list_jobs, get_job, replace_job, delete_job, pop.

(** ** What a request leaves alone *)

Lemma handle_frame (r : Request) (st : Store) :
  (∀ k, address_written r ≠ Some k →
        addresses (handle r st) !! k = addresses st !! k)
  ∧ (∀ k, person_written r ≠ Some k →
          persons (handle r st) !! k = persons st !! k)
  ∧ (∀ k, age_written r ≠ Some k → ages (handle r st) !! k = ages st !! k)
  ∧ (∀ k, job_written r ≠ Some k → jobs (handle r st) !! k = jobs st !! k).
Proof.
  destruct r;
    cbn [handle address_written person_written age_written job_written];
    unfold_handlers;
    rewrite ?AddressRead_init_create, ?PersonRead_init_create;
    repeat first [case_decide | case_match]; simplify_eq;
    cbn [snd set_persons set_addresses set_ages set_jobs
         persons addresses ages jobs PersonRead.id];
    (split; [|split; [|split]]); intros k Hk; try done;
    first [ rewrite lookup_insert_ne by congruence
          | rewrite lookup_delete_ne by congruence ]; done.
Qed.

(** X1. Whatever the request, every entry of the four tables other than the one
    the request names (the id of the created or updated Address or Person,
    the key of the created, replaced or deleted Age or Job) is the same
    before and after. *)
Theorem request_writes_one_entry (r : Request) (st : Store) :
  (∀ k, address_written r ≠ Some k →
        addresses (handle r st) !! k = addresses st !! k)
  ∧ (∀ k, person_written r ≠ Some k →
          persons (handle r st) !! k = persons st !! k)
  ∧ (∀ k, age_written r ≠ Some k → ages (handle r st) !! k = ages st !! k)
  ∧ (∀ k, job_written r ≠ Some k → jobs (handle r st) !! k = jobs st !! k).
Proof. apply handle_frame. Qed.

Lemma request_writes_one_entry_witness :
  let st := Sample.store in
  let r := DeleteAge "Ada Lovelace" in
  addresses (handle r st) !! Sample.id1 = addresses st !! Sample.id1
  ∧ persons (handle r st) !! Sample.id1 = persons st !! Sample.id1
  ∧ ages (handle r st) !! "Grace Hopper" = ages st !! "Grace Hopper"
  ∧ jobs (handle r st) !! "550e8400-e29b-41d4-a716-446655440000"
    = jobs st !! "550e8400-e29b-41d4-a716-446655440000".
Proof.
  intros st r.
  destruct (request_writes_one_entry r st) as (Ha & Hp & Hg & Hj).
  split; [|split; [|split]].
  - apply Ha. simpl. discriminate.
  - apply Hp. simpl. discriminate.
  - apply Hg. simpl. discriminate.
  - apply Hj. simpl. discriminate.
Defined.

(** X2. A request that raises, and a list or get request whatever it answers,
    leaves the store exactly as it was. *)
Theorem failed_or_read_request_changes_nothing (r : Request) (st : Store) :
  reads_only r = true ∨ (∃ e, (respond r st).1 = Raise e) →
  (respond r st).2 = st.
Proof.
  intros [Hr | [e He]].
  - destruct r; try discriminate Hr; cbn [respond answer snd];
      unfold_handlers; by repeat case_match.
  - revert He. destruct r; cbn [respond answer fst snd]; unfold_handlers;
      rewrite ?AddressRead_init_create, ?PersonRead_init_create;
      repeat first [case_decide | case_match]; simplify_eq;
      cbn [fst snd set_persons set_addresses set_ages set_jobs
           persons addresses ages jobs] in *;
      rewrite ?lookup_insert_eq in *; simplify_eq;
      try done;
      intros _; rewrite ?delete_id by done;
      by rewrite ?set_ages_same, ?set_jobs_same.
Qed.

Lemma failed_or_read_request_changes_nothing_witness :
  (respond (GetAge "Grace Hopper") Sample.store).2 = Sample.store
  ∧ (respond (CreateAddress Sample.addr_ny Sample.now) Sample.store).2
    = Sample.store.
Proof.
  split.
  - apply failed_or_read_request_changes_nothing. by left.
  - apply failed_or_read_request_changes_nothing. right.
    eexists. vm_compute. reflexivity.
Defined.

(** X3. No request raises KeyError: the lookups that follow an assignment
    find the key. A validation error can only come from the re-validation of
    the merged record in an update of an Address or of a Person; whatever
    else a handler raises is one of its own HTTP errors, with status 400 or
    404. *)
Theorem raised_is_http_error (r : Request) (st : Store) (e : Exception) :
  (respond r st).1 = Raise e →
  (∃ detail, e = HTTPException 400 detail ∨ e = HTTPException 404 detail)
  ∨ (e = ValidationError
     ∧ ((∃ i u now, r = UpdateAddress i u now)
        ∨ (∃ i u fresh now, r = UpdatePerson i u fresh now))).
Proof.
  destruct r; cbn [respond answer fst]; unfold_handlers;
    rewrite ?AddressRead_init_create, ?PersonRead_init_create;
    repeat first [case_decide | case_match]; simplify_eq;
    cbn [fst snd set_persons set_addresses set_ages set_jobs
         persons addresses ages jobs] in *;
    rewrite ?lookup_insert_eq in *; simplify_eq;
    intros He; simplify_eq;
    first [ left; by eauto
          | right; split; [done|]; left; by eauto
          | right; split; [done|]; right; by eauto 10 ].
Qed.

Lemma raised_is_http_error_witness :
  (∃ detail, HTTPException 404%Z "Age record not found" = HTTPException 400 detail
             ∨ HTTPException 404%Z "Age record not found"
               = HTTPException 404 detail)
  ∨ (HTTPException 404%Z "Age record not found" = ValidationError
     ∧ ((∃ i u now, GetAge "Grace Hopper" = UpdateAddress i u now)
        ∨ (∃ i u fresh now, GetAge "Grace Hopper" = UpdatePerson i u fresh now))).
Proof.
  apply (raised_is_http_error (GetAge "Grace Hopper") Sample.store).
  vm_compute. reflexivity.
Defined.

(** ** Ages and jobs: how the operations compose *)

(** X4. Creating the same Age or Job a second time changes nothing more, and
    deleting a key a second time raises NotFound, whatever the store. *)
Theorem create_and_delete_twice
    (age : Age.t) (job : Job.t) (person_name job_id : string) (st : Store) :
  create_age age (create_age age st).2 = create_age age st
  ∧ create_job job (create_job job st).2 = create_job job st
  ∧ delete_age person_name (delete_age person_name st).2
    = (Raise (HTTPException 404 "Age record not found"),
       (delete_age person_name st).2)
  ∧ delete_job job_id (delete_job job_id st).2
    = (Raise (HTTPException 404 "Job not found"), (delete_job job_id st).2).
Proof.
  split; [|split; [|split]].
  - unfold create_age, set_ages; cbn. by rewrite insert_insert_eq.
  - unfold create_job, set_jobs; cbn. by rewrite insert_insert_eq.
  - assert (Hgone : ages (delete_age person_name st).2 !! person_name = None).
    { unfold delete_age, pop. case_match; cbn; apply lookup_delete_eq. }
    generalize dependent ((delete_age person_name st).2). intros st' Hgone.
    unfold delete_age. by rewrite (pop_absent _ _ Hgone), set_ages_same.
  - assert (Hgone : jobs (delete_job job_id st).2 !! job_id = None).
    { unfold delete_job, pop. case_match; cbn; apply lookup_delete_eq. }
    generalize dependent ((delete_job job_id st).2). intros st' Hgone.
    unfold delete_job. by rewrite (pop_absent _ _ Hgone), set_jobs_same.
Qed.

(** X5. Creating an Age under a name the table does not hold and then deleting
    that name gives back the store there was before the create; likewise
    for a Job and the string of its id. *)
Theorem create_then_delete_restores (age : Age.t) (job : Job.t) (st : Store) :
  (ages st !! Age.person_name age = None →
   delete_age (Age.person_name age) (create_age age st).2 = (Return tt, st))
  ∧ (jobs st !! UUID_str (Job.id job) = None →
     delete_job (UUID_str (Job.id job)) (create_job job st).2 = (Return tt, st)).
Proof.
  split; intros Hk.
  - unfold delete_age, create_age, pop; cbn.
    rewrite lookup_insert_eq, delete_insert_eq, delete_id by done.
    by destruct st.
  - unfold delete_job, create_job, pop; cbn.
    rewrite lookup_insert_eq, delete_insert_eq, delete_id by done.
    by destruct st.
Qed.

Lemma create_then_delete_restores_witness :
  delete_age "Ada Lovelace" (create_age Sample.ada empty_store).2
  = (Return tt, empty_store)
  ∧ delete_job (UUID_str Sample.id1) (create_job Sample.engineer empty_store).2
    = (Return tt, empty_store).
Proof.
  destruct (create_then_delete_restores Sample.ada Sample.engineer empty_store)
    as [Hage Hjob].
  split; [apply Hage | apply Hjob]; reflexivity.
Defined.

(** X6. A replace whose path key agrees with the payload does exactly what the
    create of that payload does. *)
Theorem replace_with_own_key_is_create (age : Age.t) (job : Job.t) (st : Store) :
  replace_age (Age.person_name age) age st = create_age age st
  ∧ replace_job (UUID_str (Job.id job)) job st = create_job job st.
Proof.
  unfold replace_age, replace_job, create_age, create_job.
  split; by rewrite decide_False by (by intros ?).
Qed.

(** ** Listing ages and jobs *)

Lemma values_insert {K : Type} `{Countable K} {V : Type}
    (k : K) (v : V) (d : gmap K V) :
  values (<[k := v]> d) ≡ₚ v :: values (delete k d).
Proof.
  unfold values. rewrite <- insert_delete_eq.
  rewrite map_to_list_insert by apply lookup_delete_eq. done.
Qed.

Lemma values_delete {K : Type} `{Countable K} {V : Type}
    (k : K) (v : V) (d : gmap K V) :
  d !! k = Some v → values d ≡ₚ v :: values (delete k d).
Proof.
  intros Hk. rewrite <- (insert_id d k v) at 1 by done. apply values_insert.
Qed.

Lemma length_values {K : Type} `{Countable K} {V : Type} (d : gmap K V) :
  length (values d) = size d.
Proof. unfold values. by rewrite length_fmap, length_map_to_list. Qed.

(** X7. Listing ages (respectively jobs) leaves the store as it was and returns
    the stored records, one per key: a record is listed exactly when it is
    stored under some key, and the listing has as many records as the table
    has keys. *)
Theorem list_ages_jobs_all_stored (st : Store) :
  (∃ l, list_ages st = (Return l, st)
        ∧ (∀ a, a ∈ l ↔ ∃ k, ages st !! k = Some a)
        ∧ length l = size (ages st))
  ∧ (∃ l, list_jobs st = (Return l, st)
          ∧ (∀ j, j ∈ l ↔ ∃ k, jobs st !! k = Some j)
          ∧ length l = size (jobs st)).
Proof.
  split; eexists; (split; [reflexivity|]);
    split; [apply elem_of_values | apply length_values
           | apply elem_of_values | apply length_values].
Qed.

(** X8. After a create, the listing is the created record together with the
    records that were stored under the other keys; after a delete that
    succeeded, the former listing is the deleted record together with the
    new listing (both up to the order of the listing). *)
Theorem listing_after_create_and_delete
    (age : Age.t) (job : Job.t) (person_name job_id : string) (st : Store) :
  values (ages (create_age age st).2)
  ≡ₚ age :: values (delete (Age.person_name age) (ages st))
  ∧ values (jobs (create_job job st).2)
    ≡ₚ job :: values (delete (UUID_str (Job.id job)) (jobs st))
  ∧ (∀ old, ages st !! person_name = Some old →
            values (ages st) ≡ₚ old :: values (ages (delete_age person_name st).2))
  ∧ (∀ old, jobs st !! job_id = Some old →
            values (jobs st) ≡ₚ old :: values (jobs (delete_job job_id st).2)).
Proof.
  split; [|split; [|split]].
  - apply values_insert.
  - apply values_insert.
  - intros old Hk. unfold delete_age, pop. rewrite Hk. cbn.
    by apply values_delete.
  - intros old Hk. unfold delete_job, pop. rewrite Hk. cbn.
    by apply values_delete.
Qed.

Lemma listing_after_create_and_delete_witness :
  values (ages Sample.store)
  ≡ₚ Sample.ada :: values (ages (delete_age "Ada Lovelace" Sample.store).2)
  ∧ values (jobs Sample.store)
    ≡ₚ Sample.engineer
       :: values (jobs (delete_job (UUID_str Sample.id1) Sample.store).2).
Proof.
  destruct (listing_after_create_and_delete Sample.ada Sample.engineer
              "Ada Lovelace" (UUID_str Sample.id1) Sample.store)
    as (_ & _ & Hage & Hjob).
  split; [apply Hage | apply Hjob]; reflexivity.
Defined.

(** ** The strings of identifiers and dates are faithful *)

Section fixed_width.
Variable base : N.
Variable digit : N → ascii.
Hypothesis base_nonzero : base ≠ 0.
Hypothesis digit_inj :
  ∀ a b, a < base → b < base → digit a = digit b → a = b.

Lemma digits_fixed_length w n :
  String.length (digits_fixed base digit w n) = w.
Proof. induction w as [|w IH]; simpl; [done | by rewrite IH]. Qed.

Lemma digits_fixed_mod w a b :
  digits_fixed base digit w a = digits_fixed base digit w b →
  a mod base ^ N.of_nat w = b mod base ^ N.of_nat w.
Proof.
  induction w as [|w IH]; intros Heq.
  - by rewrite !N.mod_1_r.
  - cbn [digits_fixed] in Heq. injection Heq as Hd Hrest.
    apply digit_inj in Hd; [|by apply N.mod_upper_bound..].
    rewrite Nat2N.inj_succ, N.pow_succ_r', (N.mul_comm base).
    rewrite !N.Div0.mod_mul_r. by rewrite (IH Hrest), Hd.
Qed.

Lemma digits_fixed_inj w a b :
  a < base ^ N.of_nat w → b < base ^ N.of_nat w →
  digits_fixed base digit w a = digits_fixed base digit w b → a = b.
Proof.
  intros Ha Hb Heq%digits_fixed_mod.
  by rewrite !N.mod_small in Heq.
Qed.
End fixed_width.

Lemma hex_fixed_digits w n : hex_fixed w n = digits_fixed 16 hex_digit w n.
Proof.
  induction w as [|w IH]; [done|].
  cbn [hex_fixed digits_fixed]. rewrite IH. do 2 f_equal.
  change 15 with (N.ones 4).
  rewrite N.land_ones, N.shiftr_div_pow2, N.pow_mul_r. done.
Qed.

Lemma dec_fixed_digits w n : dec_fixed w n = digits_fixed 10 dec_digit w n.
Proof. induction w as [|w IH]; [done|]. cbn [dec_fixed digits_fixed]. by rewrite IH. Qed.

Lemma hex_digit_inj a b : a < 16 → b < 16 → hex_digit a = hex_digit b → a = b.
Proof.
  intros Ha Hb.
  rewrite <- (N2Nat.id a), <- (N2Nat.id b).
  assert (Ha' : (N.to_nat a < 16)%nat) by lia.
  assert (Hb' : (N.to_nat b < 16)%nat) by lia.
  generalize dependent (N.to_nat b). generalize dependent (N.to_nat a).
  clear. intros n Hn m Hm.
  do 16 (destruct n as [|n]; [do 16 (destruct m as [|m]; [by vm_compute|]); lia|]).
  lia.
Qed.

Lemma dec_digit_inj a b : a < 10 → b < 10 → dec_digit a = dec_digit b → a = b.
Proof.
  intros Ha Hb.
  rewrite <- (N2Nat.id a), <- (N2Nat.id b).
  assert (Ha' : (N.to_nat a < 10)%nat) by lia.
  assert (Hb' : (N.to_nat b < 10)%nat) by lia.
  generalize dependent (N.to_nat b). generalize dependent (N.to_nat a).
  clear. intros n Hn m Hm.
  do 10 (destruct n as [|n]; [do 10 (destruct m as [|m]; [by vm_compute|]); lia|]).
  lia.
Qed.

(** The 8-4-4-4-12 grouping of 32 characters loses none of them. *)
Lemma grouping_inj (s t : string) :
  String.length s = 32%nat → String.length t = 32%nat →
  String.substring 0 8 s +:+ "-" +:+ String.substring 8 4 s +:+ "-" +:+
  String.substring 12 4 s +:+ "-" +:+ String.substring 16 4 s +:+ "-" +:+
  String.substring 20 12 s
  = String.substring 0 8 t +:+ "-" +:+ String.substring 8 4 t +:+ "-" +:+
    String.substring 12 4 t +:+ "-" +:+ String.substring 16 4 t +:+ "-" +:+
    String.substring 20 12 t →
  s = t.
Proof.
  intros Hs Ht.
  do 32 (destruct s as [|? s]; [done|]). destruct s; [|done].
  do 32 (destruct t as [|? t]; [done|]). destruct t; [|done].
  cbn. intros Heq. by simplify_eq.
Qed.

Lemma grouping_length (s : string) :
  String.length s = 32%nat →
  String.length
    (String.substring 0 8 s +:+ "-" +:+ String.substring 8 4 s +:+ "-" +:+
     String.substring 12 4 s +:+ "-" +:+ String.substring 16 4 s +:+ "-" +:+
     String.substring 20 12 s) = 36%nat.
Proof.
  intros Hs.
  do 32 (destruct s as [|? s]; [done|]). by destruct s.
Qed.

Lemma UUID_str_length u : String.length (UUID_str u) = 36%nat.
Proof.
  unfold UUID_str. cbv zeta. apply grouping_length.
  by rewrite hex_fixed_digits, digits_fixed_length.
Qed.

Lemma UUID_str_inj u v :
  uuid_in_range u → uuid_in_range v → UUID_str u = UUID_str v → u = v.
Proof.
  unfold uuid_in_range, UUID_str. cbv zeta. intros Hu Hv Heq.
  apply grouping_inj in Heq;
    [|by rewrite hex_fixed_digits, digits_fixed_length..].
  rewrite !hex_fixed_digits in Heq.
  apply (digits_fixed_inj 16 hex_digit) in Heq;
    [by destruct u, v; simplify_eq/= | done | apply hex_digit_inj | done..].
Qed.

(** ** Jobs are kept apart by their ids *)

(** X9. Two jobs whose ids differ are stored under different keys: creating,
    replacing or deleting a job under the string of one id leaves what a Get
    for the other id answers as it was. The ids are those Python builds,
    below [2 ^ 128]. *)
Theorem jobs_with_distinct_ids_apart (job other : Job.t) (st : Store) :
  uuid_in_range (Job.id job) → uuid_in_range (Job.id other) →
  Job.id job ≠ Job.id other →
  let k := UUID_str (Job.id job) in
  let k' := UUID_str (Job.id other) in
  k ≠ k'
  ∧ (get_job k (create_job other st).2).1 = (get_job k st).1
  ∧ (get_job k (replace_job k' other st).2).1 = (get_job k st).1
  ∧ (get_job k (delete_job k' st).2).1 = (get_job k st).1
  ∧ (get_job k (create_job other (create_job job st).2).2).1 = Return job.
Proof.
  intros Hj Ho Hne k k'.
  assert (Hk : k' ≠ k) by (intros Heq; by apply Hne, UUID_str_inj).
  split; [done|].
  unfold get_job, create_job, replace_job, delete_job, pop.
  repeat split; repeat first [case_decide | case_match]; simplify_eq;
    cbn [fst snd set_jobs jobs] in *;
    rewrite ?lookup_insert_ne, ?lookup_delete_ne, ?lookup_insert_eq in * by done;
    by simplify_eq.
Qed.

Lemma jobs_with_distinct_ids_apart_witness :
  let other :=
    Job.mk Sample.id2 "Analyst" "Acme" (mkDate 2020 1 1) None false in
  let k := UUID_str Sample.id1 in
  k ≠ UUID_str Sample.id2
  ∧ (get_job k (create_job other Sample.store).2).1 = (get_job k Sample.store).1.
Proof.
  intros other k.
  destruct (jobs_with_distinct_ids_apart Sample.engineer other Sample.store)
    as (Hk & Hc & _).
  - by vm_compute.
  - by vm_compute.
  - by vm_compute.
  - split; [exact Hk | exact Hc].
Defined.

(** ** Stores the service can reach *)

Lemma keys_of_consistent {V : Type} (f : V → string) (d : gmap string V) :
  map_Forall (λ k v, k = f v) d → f <$> values d = (map_to_list d).*1.
Proof.
  intros Hd%map_Forall_to_list. unfold values.
  induction Hd as [|[k v] l Hkv _ IH]; [done|].
  cbn in *. by rewrite IH, Hkv.
Qed.

(** X10. In a store reached from the empty stores, a Get for an Age answers with
    a record of the requested person_name, and a Get for a Job with a record
    whose id has the requested string; the listings hold no two ages of one
    person_name and no two jobs of one id. *)
Theorem reachable_ages_jobs_keyed (rs : list Request) :
  let st := serve rs empty_store in
  (∀ k a st', get_age k st = (Return a, st') → Age.person_name a = k)
  ∧ (∀ k j st', get_job k st = (Return j, st') → UUID_str (Job.id j) = k)
  ∧ NoDup (Age.person_name <$> values (ages st))
  ∧ NoDup (Job.id <$> values (jobs st)).
Proof.
  intros st.
  destruct (serve_keys_consistent rs empty_store) as [Hages Hjobs];
    [split; apply map_Forall_empty|]. fold st in Hages, Hjobs.
  split; [|split; [|split]].
  - intros k a st'. unfold get_age. case_match eqn:Hk; [|done].
    intros [= <- _]. symmetry. by apply (Hages _ _ Hk).
  - intros k j st'. unfold get_job. case_match eqn:Hk; [|done].
    intros [= <- _]. symmetry. by apply (Hjobs _ _ Hk).
  - rewrite (keys_of_consistent _ _ Hages). apply NoDup_fst_map_to_list.
  - apply (NoDup_fmap_1 UUID_str). rewrite <- list_fmap_compose.
    rewrite (keys_of_consistent (UUID_str ∘ Job.id) _ Hjobs).
    apply NoDup_fst_map_to_list.
Qed.

Lemma reachable_ages_jobs_keyed_witness :
  Age.person_name Sample.ada = "Ada Lovelace"
  ∧ UUID_str (Job.id Sample.engineer) = UUID_str Sample.id1.
Proof.
  pose proof (reachable_ages_jobs_keyed
                [CreateAddress Sample.addr_ny Sample.now;
                 CreateAddress Sample.addr_ca Sample.now;
                 CreateAge Sample.ada; CreateJob Sample.engineer])
    as (Hage & Hjob & _).
  split.
  - apply (Hage "Ada Lovelace" Sample.ada Sample.store). reflexivity.
  - apply (Hjob (UUID_str Sample.id1) Sample.engineer Sample.store). reflexivity.
Defined.

(** X11. In a store reached from the empty stores every key of the jobs table is
    the 36-character string of an id, so a Get or a Delete for a job_id of
    another length raises NotFound. *)
Theorem reachable_job_keys_canonical (rs : list Request) (job_id : string) :
  String.length job_id ≠ 36%nat →
  let st := serve rs empty_store in
  get_job job_id st = (Raise (HTTPException 404 "Job not found"), st)
  ∧ delete_job job_id st = (Raise (HTTPException 404 "Job not found"), st).
Proof.
  intros Hlen st.
  destruct (serve_keys_consistent rs empty_store) as [_ Hjobs];
    [split; apply map_Forall_empty|]. fold st in Hjobs.
  assert (Hk : jobs st !! job_id = None).
  { destruct (jobs st !! job_id) as [j|] eqn:Hk; [|done].
    apply Hjobs in Hk. cbn in Hk. subst job_id.
    by rewrite UUID_str_length in Hlen. }
  split.
  - unfold get_job. by rewrite Hk.
  - unfold delete_job. by rewrite (pop_absent _ _ Hk), set_jobs_same.
Qed.

Lemma reachable_job_keys_canonical_witness :
  get_job "550e8400e29b41d4a716446655440000" Sample.store
  = (Raise (HTTPException 404 "Job not found"), Sample.store)
  ∧ delete_job "550e8400e29b41d4a716446655440000" Sample.store
    = (Raise (HTTPException 404 "Job not found"), Sample.store).
Proof.
  apply (reachable_job_keys_canonical
           [CreateAddress Sample.addr_ny Sample.now;
            CreateAddress Sample.addr_ca Sample.now;
            CreateAge Sample.ada; CreateJob Sample.engineer]).
  by vm_compute.
Defined.

(** ** Person partial update *)

Lemma lookup_person_dump_set_eq {A : Type} (dump : A → pyval) k f d :
  PersonUpdate.dump_set dump k f d !! k = match f with
                                          | Some v => Some (dump v)
                                          | None => d !! k
                                          end.
Proof. destruct f; simpl; [apply lookup_insert_eq | done]. Qed.

Lemma lookup_person_dump_set_ne {A : Type} (dump : A → pyval) k k' f d :
  k ≠ k' → PersonUpdate.dump_set dump k f d !! k' = d !! k'.
Proof. intros ?. destruct f; simpl; [by apply lookup_insert_ne | done]. Qed.

Lemma PersonRead_init_update fresh now old upd :
  PersonRead.init fresh now
    (update (PersonRead.model_dump old)
            (PersonUpdate.model_dump_exclude_unset upd))
  = if PersonUpdate.sets_null upd then None
    else Some (merge_person old upd).
Proof.
  destruct old as [i [u f l e h b a] s], upd as [uu uf ul ue uh ub ua].
  unfold PersonRead.init, PersonBase.init.
  rewrite !lookup_update_field.
  unfold PersonUpdate.model_dump_exclude_unset.
  repeat first
    [ rewrite lookup_person_dump_set_eq
    | rewrite lookup_person_dump_set_ne by done
    | rewrite lookup_empty ].
  unfold PersonRead.model_dump, PersonBase.model_dump; simpl.
  kw_lookup; simpl.
  destruct uu as [[?|]|]; [|reflexivity|];
    (destruct uf as [[?|]|]; [|reflexivity|]);
    (destruct ul as [[?|]|]; [|reflexivity|]);
    (destruct ue as [[?|]|]; [|reflexivity|]);
    (destruct uh as [[?|]|]; [|reflexivity|]);
    (destruct ub as [[?|]|]; [|reflexivity|]);
    (destruct ua as [[?|]|]; [|reflexivity|]);
    simpl; unfold PersonUpdate.dump_addresses;
    by rewrite load_addresses_dump.
Qed.

Lemma update_person_present person_id upd fresh now st old :
  persons st !! person_id = Some old →
  update_person person_id upd fresh now st
  = if PersonUpdate.sets_null upd then (Raise ValidationError, st)
    else (Return (merge_person old upd),
          set_persons (<[person_id := merge_person old upd]> (persons st)) st).
Proof.
  intros Hk. unfold update_person. rewrite Hk, PersonRead_init_update.
  destruct (PersonUpdate.sets_null upd); [done|].
  cbn [set_persons persons]. by rewrite lookup_insert_eq.
Qed.

(** X12. Updating a Person whose id is absent from the table raises
    NotFound and changes nothing; when a record is stored under the id and
    the payload sets no field to null, the update stores and returns the
    merge of the stored record with the payload: a field the payload sets
    takes the payload's value, every other field, the id and the
    server-assigned fields keep the stored one. *)
Theorem update_person_merges
    (person_id : UUID) (upd : PersonUpdate.t) (fresh : UUID)
    (now : ServerAssigned) (st : Store) :
  (persons st !! person_id = None →
     update_person person_id upd fresh now st
     = (Raise (HTTPException 404 "Person not found"), st))
  ∧ (∀ old, persons st !! person_id = Some old →
            PersonUpdate.sets_null upd = false →
       update_person person_id upd fresh now st
       = (Return (merge_person old upd),
          set_persons (<[person_id := merge_person old upd]> (persons st)) st)).
Proof.
  split.
  - intros Hk. unfold update_person. by rewrite Hk.
  - intros old Hk Hnull. by rewrite (update_person_present _ _ _ _ _ _ Hk), Hnull.
Qed.

Lemma update_person_merges_witness :
  let st := serve [CreatePerson Sample.traveller Sample.id1 Sample.now] empty_store in
  let upd := PersonUpdate.mk None None None None (Some (Some "+1-212-555-0199"))
               None None in
  update_person Sample.id2 upd Sample.id2 Sample.now st
  = (Raise (HTTPException 404 "Person not found"), st)
  ∧ (update_person Sample.id1 upd Sample.id2 Sample.now st).1
    = Return (PersonRead.mk Sample.id1
                (PersonBase.mk "abc1234" "Ada" "Lovelace" "ada@example.com"
                   "+1-212-555-0199" (mkDate 1815 12 10)
                   [Sample.addr_paris; Sample.addr_rome])
                Sample.now).
Proof.
  intros st upd.
  destruct (update_person_merges Sample.id1 upd Sample.id2 Sample.now st)
    as [_ Hsome].
  destruct (update_person_merges Sample.id2 upd Sample.id2 Sample.now st)
    as [Hnone _].
  split.
  - apply Hnone. reflexivity.
  - rewrite (Hsome (PersonRead.mk Sample.id1 Sample.traveller Sample.now));
      reflexivity.
Defined.

Lemma merge_address_empty old : merge_address old empty_address_update = old.
Proof. by destruct old as [[] ?]. Qed.

Lemma merge_person_empty old : merge_person old empty_person_update = old.
Proof. by destruct old as [? [] ?]. Qed.

Lemma merge_address_twice old upd :
  merge_address (merge_address old upd) upd = merge_address old upd.
Proof.
  destruct old as [[] ?],
    upd as [[[?|]|] [[?|]|] [[?|]|] [[?|]|] [[?|]|]]; reflexivity.
Qed.

Lemma merge_person_twice old upd :
  merge_person (merge_person old upd) upd = merge_person old upd.
Proof.
  destruct old as [? [] ?], upd as [uu uf ul ue uh ub ua].
  unfold merge_person; cbn. f_equal. f_equal.
  - by destruct uu as [[?|]|].
  - by destruct uf as [[?|]|].
  - by destruct ul as [[?|]|].
  - by destruct ue as [[?|]|].
  - by destruct uh as [[?|]|].
  - by destruct ub as [[?|]|].
  - by destruct ua as [[?|]|].
Qed.

(** X13. An update whose payload sets no field returns the stored record and
    leaves the store as it was; and applying an update a second time, to
    an Address or to a Person, changes nothing more and answers as the
    first time. *)
Theorem update_empty_and_twice
    (key : UUID) (aupd : AddressUpdate.t) (pupd : PersonUpdate.t)
    (fresh fresh' : UUID) (now now' : ServerAssigned) (st : Store) :
  (∀ old, addresses st !! key = Some old →
          update_address key empty_address_update now st = (Return old, st))
  ∧ (∀ old, persons st !! key = Some old →
            update_person key empty_person_update fresh now st = (Return old, st))
  ∧ update_address key aupd now' (update_address key aupd now st).2
    = update_address key aupd now st
  ∧ update_person key pupd fresh' now' (update_person key pupd fresh now st).2
    = update_person key pupd fresh now st.
Proof.
  split; [|split; [|split]].
  - intros old Hk. rewrite (update_address_present _ _ _ _ _ Hk).
    cbn [AddressUpdate.sets_null empty_address_update is_null orb
         AddressUpdate.street AddressUpdate.city AddressUpdate.state
         AddressUpdate.postal_code AddressUpdate.country].
    rewrite merge_address_empty, insert_id by done. by destruct st.
  - intros old Hk. rewrite (update_person_present _ _ _ _ _ _ Hk).
    cbn [PersonUpdate.sets_null empty_person_update is_null orb
         PersonUpdate.uni PersonUpdate.first_name PersonUpdate.last_name
         PersonUpdate.email PersonUpdate.phone PersonUpdate.birth_date
         PersonUpdate.addresses].
    rewrite merge_person_empty, insert_id by done. by destruct st.
  - destruct (addresses st !! key) as [old|] eqn:Hk.
    + rewrite (update_address_present _ _ now _ _ Hk).
      destruct (AddressUpdate.sets_null aupd) eqn:Hnull; cbn [snd].
      * by rewrite (update_address_present _ _ _ _ _ Hk), Hnull.
      * rewrite (update_address_present _ _ _ _ (merge_address old aupd))
          by apply lookup_insert_eq.
        rewrite Hnull. cbn [set_addresses addresses persons ages jobs].
        by rewrite merge_address_twice, insert_insert_eq.
    + unfold update_address. rewrite Hk. cbn [snd]. by rewrite Hk.
  - destruct (persons st !! key) as [old|] eqn:Hk.
    + rewrite (update_person_present _ _ fresh now _ _ Hk).
      destruct (PersonUpdate.sets_null pupd) eqn:Hnull; cbn [snd].
      * by rewrite (update_person_present _ _ _ _ _ _ Hk), Hnull.
      * rewrite (update_person_present _ _ _ _ _ (merge_person old pupd))
          by apply lookup_insert_eq.
        rewrite Hnull. cbn [set_persons addresses persons ages jobs].
        by rewrite merge_person_twice, insert_insert_eq.
    + unfold update_person. rewrite Hk. cbn [snd]. by rewrite Hk.
Qed.

Lemma update_empty_and_twice_witness :
  update_address Sample.id1 empty_address_update Sample.now Sample.store_ab
  = (Return (AddressRead.mk Sample.addr_ab Sample.now), Sample.store_ab)
  ∧ (let st := serve [CreatePerson Sample.traveller Sample.id1 Sample.now]
                 empty_store in
     update_person Sample.id1 empty_person_update Sample.id2 Sample.now st
     = (Return (PersonRead.mk Sample.id1 Sample.traveller Sample.now), st)).
Proof.
  split.
  - by apply (update_empty_and_twice Sample.id1 empty_address_update
                empty_person_update Sample.id2 Sample.id2 Sample.now Sample.now
                Sample.store_ab).
  - intros st.
    by apply (update_empty_and_twice Sample.id1 empty_address_update
                empty_person_update Sample.id2 Sample.id2 Sample.now Sample.now
                st).
Defined.

(** ** Addresses and persons in the stores the service can reach *)

Lemma handle_ids_consistent r st :
  ids_consistent st → ids_consistent (handle r st).
Proof.
  intros [Haddr Hpers].
  destruct r; cbn [handle]; unfold_handlers;
    rewrite ?AddressRead_init_create, ?PersonRead_init_create;
    try (repeat first [case_decide | case_match]; by split).
  - (* create_address *)
    case_decide; [by split|].
    cbn [set_addresses addresses]. rewrite lookup_insert_eq.
    split; cbn; [|done]. by apply map_Forall_insert_2.
  - (* update_address *)
    fold (update_address address_id upd now st).
    destruct (addresses st !! address_id) as [old|] eqn:Hk.
    + rewrite (update_address_present _ _ _ _ _ Hk).
      destruct (AddressUpdate.sets_null upd); [by split|].
      split; cbn; [|done].
      apply map_Forall_insert_2; [|done]. by apply (Haddr _ _ Hk).
    + unfold update_address. rewrite Hk. by split.
  - (* create_person *)
    split; cbn; [done|]. by apply map_Forall_insert_2.
  - (* update_person *)
    fold (update_person person_id upd fresh now st).
    destruct (persons st !! person_id) as [old|] eqn:Hk.
    + rewrite (update_person_present _ _ _ _ _ _ Hk).
      destruct (PersonUpdate.sets_null upd); [by split|].
      split; cbn; [done|].
      apply map_Forall_insert_2; [|done]. by apply (Hpers _ _ Hk).
    + unfold update_person. rewrite Hk. by split.
Qed.

Lemma serve_ids_consistent rs st :
  ids_consistent st → ids_consistent (serve rs st).
Proof.
  revert st. induction rs as [|r rs IH]; intros st Hst; [done|].
  apply IH. by apply handle_ids_consistent.
Qed.

Lemma ids_of_consistent {V : Type} (f : V → UUID) (d : gmap UUID V) :
  map_Forall (λ k v, k = f v) d → f <$> values d = (map_to_list d).*1.
Proof.
  intros Hd%map_Forall_to_list. unfold values.
  induction Hd as [|[k v] l Hkv _ IH]; [done|].
  cbn in *. by rewrite IH, Hkv.
Qed.

(** X14. In a store reached from the empty stores every Address and every Person
    is stored under its own id: a Get answers with a record of the requested
    id, and the listings hold no two addresses and no two persons of one
    id. *)
Theorem reachable_addresses_persons_keyed (rs : list Request) :
  let st := serve rs empty_store in
  ids_consistent st
  ∧ (∀ k a st', get_address k st = (Return a, st') → AddressRead.id a = k)
  ∧ (∀ k p st', get_person k st = (Return p, st') → PersonRead.id p = k)
  ∧ NoDup (AddressRead.id <$> values (addresses st))
  ∧ NoDup (PersonRead.id <$> values (persons st)).
Proof.
  intros st.
  assert (Hids : ids_consistent st).
  { apply serve_ids_consistent. split; apply map_Forall_empty. }
  split; [done|]. destruct Hids as [Haddr Hpers].
  split; [|split; [|split]].
  - intros k a st'. unfold get_address. case_match eqn:Hk; [|done].
    intros [= <- _]. symmetry. by apply (Haddr _ _ Hk).
  - intros k p st'. unfold get_person. case_match eqn:Hk; [|done].
    intros [= <- _]. symmetry. by apply (Hpers _ _ Hk).
  - rewrite (ids_of_consistent _ _ Haddr). apply NoDup_fst_map_to_list.
  - rewrite (ids_of_consistent _ _ Hpers). apply NoDup_fst_map_to_list.
Qed.

Lemma reachable_addresses_persons_keyed_witness :
  AddressRead.id (AddressRead.mk Sample.addr_ca Sample.now) = Sample.id2.
Proof.
  pose proof (reachable_addresses_persons_keyed
                [CreateAddress Sample.addr_ny Sample.now;
                 CreateAddress Sample.addr_ca Sample.now;
                 CreateAge Sample.ada; CreateJob Sample.engineer])
    as (_ & Haddr & _).
  apply (Haddr Sample.id2 (AddressRead.mk Sample.addr_ca Sample.now) Sample.store).
  reflexivity.
Defined.

Lemma handle_keeps_records r st :
  (∀ k a, addresses st !! k = Some a →
          ∃ a', addresses (handle r st) !! k = Some a'
                ∧ AddressRead.id a' = AddressRead.id a
                ∧ AddressRead.assigned a' = AddressRead.assigned a)
  ∧ (∀ k, is_Some (persons st !! k) → is_Some (persons (handle r st) !! k)).
Proof.
  split.
  - intros k a Hk.
    destruct (decide (address_written r = Some k)) as [Hw|Hw].
    + destruct r; try discriminate Hw; cbn in Hw; simplify_eq; cbn [handle].
      * unfold create_address. rewrite decide_True by eauto. eauto.
      * rewrite (update_address_present _ _ _ _ _ Hk).
        destruct (AddressUpdate.sets_null upd); cbn [snd]; [by eauto|].
        cbn [set_addresses addresses]. rewrite lookup_insert_eq. eauto.
    + destruct (handle_frame r st) as (Hframe & _).
      rewrite Hframe by done. eauto.
  - intros k Hk.
    destruct (decide (person_written r = Some k)) as [Hw|Hw].
    + destruct r; try discriminate Hw; cbn in Hw; simplify_eq; cbn [handle].
      * unfold create_person. rewrite PersonRead_init_create.
        cbn [snd set_persons persons PersonRead.id].
        rewrite lookup_insert_eq. eauto.
      * destruct Hk as [old Hk].
        rewrite (update_person_present _ _ _ _ _ _ Hk).
        destruct (PersonUpdate.sets_null upd); cbn [snd]; [by eauto|].
        cbn [set_persons persons]. rewrite lookup_insert_eq. eauto.
    + destruct (handle_frame r st) as (_ & Hframe & _).
      by rewrite Hframe.
Qed.

(** X15. No request removes an Address or a Person: a record stored under an id
    is still stored under it after any sequence of requests, and an Address
    keeps its id and its server-assigned fields throughout. *)
Theorem addresses_and_persons_stay (rs : list Request) (st : Store) :
  (∀ k a, addresses st !! k = Some a →
          ∃ a', get_address k (serve rs st) = (Return a', serve rs st)
                ∧ AddressRead.id a' = AddressRead.id a
                ∧ AddressRead.assigned a' = AddressRead.assigned a)
  ∧ (∀ k, is_Some (persons st !! k) →
          ∃ p', get_person k (serve rs st) = (Return p', serve rs st)).
Proof.
  revert st. induction rs as [|r rs IH]; intros st.
  - split.
    + intros k a Hk. exists a. unfold get_address. cbn. by rewrite Hk.
    + intros k [p Hk]. exists p. unfold get_person. cbn. by rewrite Hk.
  - destruct (handle_keeps_records r st) as [Haddr Hpers].
    destruct (IH (handle r st)) as [IHaddr IHpers].
    split.
    + intros k a Hk. destruct (Haddr k a Hk) as (a1 & Hk1 & Hid & Hasg).
      destruct (IHaddr k a1 Hk1) as (a' & Hget & Hid' & Hasg').
      exists a'. cbn [serve foldl] in *. split; [done|]. split; congruence.
    + intros k Hk. by apply IHpers, Hpers.
Qed.

Lemma addresses_and_persons_stay_witness :
  ∃ a', get_address Sample.id1
          (serve [UpdateAddress Sample.id1 Sample.city_c Sample.now;
                  DeleteAge "Ada Lovelace"] Sample.store_ab)
        = (Return a',
           serve [UpdateAddress Sample.id1 Sample.city_c Sample.now;
                  DeleteAge "Ada Lovelace"] Sample.store_ab)
        ∧ AddressRead.id a' = Sample.id1
        ∧ AddressRead.assigned a' = Sample.now.
Proof.
  apply (proj1 (addresses_and_persons_stay
                  [UpdateAddress Sample.id1 Sample.city_c Sample.now;
                   DeleteAge "Ada Lovelace"] Sample.store_ab)
           Sample.id1 (AddressRead.mk Sample.addr_ab Sample.now)).
  reflexivity.
Defined.

(** ** The birth date filter *)

Lemma date_str_inj d d' :
  date_in_range d → date_in_range d' → date_str d = date_str d' → d = d'.
Proof.
  destruct d as [y m dd], d' as [y' m' dd'].
  unfold date_in_range, date_str; cbn [year month day].
  intros (Hy & Hm & Hd) (Hy' & Hm' & Hd') Heq.
  assert (dec_fixed 4 y = dec_fixed 4 y' ∧ dec_fixed 2 m = dec_fixed 2 m'
          ∧ dec_fixed 2 dd = dec_fixed 2 dd') as (Ey & Em & Ed).
  { cbn [dec_fixed String.append] in *. simplify_eq.
    repeat split; congruence. }
  rewrite !dec_fixed_digits in *.
  apply (digits_fixed_inj 10 dec_digit) in Ey, Em, Ed;
    try done; try apply dec_digit_inj.
  by subst.
Qed.

(** X16. Comparing the string of a birth date with the filter compares the
    dates: for the dates Python builds, listing persons with the birth_date
    filter set to the string of a date returns exactly the stored persons
    born on that date. *)
Theorem birth_date_filter_compares_dates (d : date) (st : Store) :
  date_in_range d →
  (∀ k p, persons st !! k = Some p → date_in_range (PersonRead.birth_date p)) →
  ∃ results,
    list_persons None None None None None (Some (date_str d)) None None st
    = (Return results, st)
    ∧ ∀ p, p ∈ results ↔
           (∃ k, persons st !! k = Some p) ∧ PersonRead.birth_date p = d.
Proof.
  intros Hd Hst. eexists. split; [apply list_persons_as_filter|].
  intros p. rewrite list_elem_of_filter, elem_of_values.
  unfold person_matches; cbn [param_matches some_address_matches].
  split.
  - intros [(_ & _ & _ & _ & _ & Hb & _) [k Hk]]. split; [eauto|].
    apply date_str_inj; [by eapply Hst | done | done].
  - intros [Hk Hp]. split; [|done]. by rewrite Hp.
Qed.

Lemma birth_date_filter_compares_dates_witness :
  let st := serve [CreatePerson Sample.traveller Sample.id1 Sample.now] empty_store in
  ∃ results,
    list_persons None None None None None (Some "1815-12-10") None None st
    = (Return results, st)
    ∧ ∀ p, p ∈ results ↔
           (∃ k, persons st !! k = Some p)
           ∧ PersonRead.birth_date p = mkDate 1815 12 10.
Proof.
  intros st.
  apply (birth_date_filter_compares_dates (mkDate 1815 12 10) st).
  - by vm_compute.
  - intros k p Hk.
    assert (Hst : persons st
                  = {[Sample.id1 :=
                        PersonRead.mk Sample.id1 Sample.traveller Sample.now]})
      by reflexivity.
    rewrite Hst in Hk. apply lookup_singleton_Some in Hk as [_ <-].
    by vm_compute.
Defined.

(** ** Listing addresses and persons after a create *)

(** X17. After an Address was created under an id that was not a key, the
    listing is the created record together with the former listing; after a
    Person was created, it is the created record together with the records
    formerly stored under the other ids (up to the order of the listing). *)
Theorem listing_after_address_person_create
    (address : AddressCreate.t) (person : PersonCreate.t) (fresh : UUID)
    (now : ServerAssigned) (st : Store) :
  (addresses st !! AddressBase.id address = None →
   values (addresses (create_address address now st).2)
   ≡ₚ AddressRead.mk address now :: values (addresses st))
  ∧ values (persons (create_person person fresh now st).2)
    ≡ₚ PersonRead.mk fresh person now :: values (delete fresh (persons st)).
Proof.
  split.
  - intros Hk. unfold create_address.
    rewrite decide_False by (rewrite Hk; by intros [? ?]).
    rewrite AddressRead_init_create. cbn [set_addresses addresses].
    rewrite lookup_insert_eq. cbn [snd set_addresses addresses].
    rewrite values_insert. by rewrite delete_id.
  - unfold create_person. rewrite PersonRead_init_create.
    cbn [snd set_persons persons PersonRead.id]. apply values_insert.
Qed.

Lemma listing_after_address_person_create_witness :
  values (addresses (create_address Sample.addr_ny Sample.now empty_store).2)
  ≡ₚ AddressRead.mk Sample.addr_ny Sample.now :: values (addresses empty_store).
Proof.
  by apply (listing_after_address_person_create Sample.addr_ny Sample.traveller
              Sample.id1 Sample.now empty_store).
Defined.
